(** * HFT-Core ring buffers: a shallow embedding and its verification

    The development embeds the two headers of the repository,

    - [include/RingBuffer.hpp]: [hft::core::RingBuffer<T, Capacity, Policy>],
    - [include/SPSC.hpp]:       [hft::core::SPSCRingBuffer<T, Capacity>],

    as state-passing programs over an explicit record of the object's data
    members, and proves the properties of the specification about them.

    Conventions.
    - [std::size_t] is a 64-bit unsigned integer: a [Z] in [0, 2^64) whose
      arithmetic wraps ([SizeT.add], [SizeT.sub]).
    - A member function is a computation in the monad [M S A]: it takes the
      object, and either returns a value and the object afterwards, or
      stops with an assertion failure, an out-of-range slot access
      (undefined behaviour of [std::array::operator[]]) or exhausted fuel.
    - The executions covered are the sequential ones: member functions run
      to completion one after the other.  Memory orders do not change the
      result of such an execution and are not represented. *)

From Stdlib Require Import ZArith List Bool Lia.
From stdpp Require Import base list.
Import ListNotations.
Local Open Scope Z_scope.

(** ** [std::size_t] *)

Module SizeT.
Definition bits : Z := 64.
Definition modulus : Z := 2 ^ bits.
Definition wrap (x : Z) : Z := x mod modulus.
Definition add (a b : Z) : Z := wrap (a + b).
Definition sub (a b : Z) : Z := wrap (a - b).
(** The values a [std::size_t] template argument can take. *)
Definition representable (x : Z) : bool := (0 <=? x) && (x <? modulus).
End SizeT.

(** ** Results of member functions *)

Inductive outcome (A : Type) : Type :=
| Done (a : A)
| AssertionFailed
| OutOfBounds
| OutOfFuel.
Arguments Done {A} a.
Arguments AssertionFailed {A}.
Arguments OutOfBounds {A}.
Arguments OutOfFuel {A}.

Definition M (S A : Type) : Type := S -> outcome (A * S).

Definition ret {S A : Type} (a : A) : M S A := fun s => Done (a, s).

Definition bind {S A B : Type} (c : M S A) (k : A -> M S B) : M S B :=
  fun s =>
    match c s with
    | Done (a, s') => k a s'
    | AssertionFailed => AssertionFailed
    | OutOfBounds => OutOfBounds
    | OutOfFuel => OutOfFuel
    end.

Definition assertion_failure {S A : Type} : M S A := fun _ => AssertionFailed.
Definition out_of_fuel {S A : Type} : M S A := fun _ => OutOfFuel.

Notation "x <- c ;; k" := (bind c (fun x => k))
  (at level 20, c at level 99, k at level 200, only parsing).
Notation "' pat <- c ;; k" := (bind c (fun x => match x with pat => k end))
  (at level 20, pat pattern, c at level 99, k at level 200, only parsing).

(** [buffer_[i]] on a [std::array]: defined only for an index inside the
    array. *)
Definition slot {T : Type} (buf : list T) (i : Z) : option T :=
  if i <? 0 then None else buf !! Z.to_nat i.

(** ** The static assertion on [Capacity] (both headers)

    [static_assert((Capacity != 0U) && ((Capacity & (Capacity - 1)) == 0))] *)

Definition capacity_assert (Capacity : Z) : bool :=
  negb (Capacity =? 0) && (Z.land Capacity (SizeT.sub Capacity 1) =? 0).

(** [Capacity] is a [std::size_t] value and passes the assertion.  This is
    what the assertion lets through; whether the instantiation then compiles
    also depends on the rest of the class (the [std::array] member has a
    size limit of its own), which is not represented. *)
Definition accepts (Capacity : Z) : bool :=
  SizeT.representable Capacity && capacity_assert Capacity.

(** ** RingBuffer.hpp *)

Inductive OverflowPolicy : Type := Reject | Overwrite.

Record RingBuffer (T : Type) : Type := mkRingBuffer {
  buffer_ : list T;
  tail : Z;
  head : Z
}.
Arguments mkRingBuffer {T} _ _ _.
Arguments buffer_ {T} _.
Arguments tail {T} _.
Arguments head {T} _.

(** The calls a client makes, and what they return.  [Pop(out_value)]
    returning [true] with [out_value = v] is [Some v]; returning [false],
    with [out_value] untouched, is [None]. *)
Inductive call (T : Type) : Type := CallPush (v : T) | CallPop.
Arguments CallPush {T} v.
Arguments CallPop {T}.

Inductive reply (T : Type) : Type :=
| PushReturned (b : bool)
| PopReturned (r : option T).
Arguments PushReturned {T} b.
Arguments PopReturned {T} r.

Module RB.
Section Def.
Context {T : Type}.
Variable Capacity : Z.
Variable Policy : OverflowPolicy.

Local Abbreviation St := (RingBuffer T).

Definition Mask : Z := SizeT.sub Capacity 1.

(** [std::array<T, Capacity> buffer_ {}; tail {0}; head {0}]; [zero] is
    the value-initialised [T]. *)
Definition init (zero : T) : St :=
  {| buffer_ := replicate (Z.to_nat Capacity) zero; tail := 0; head := 0 |}.

(** Atomic operations on the indices. *)
Definition load_tail : M St Z := fun s => Done (tail s, s).
Definition load_head : M St Z := fun s => Done (head s, s).
Definition store_tail (v : Z) : M St unit :=
  fun s => Done (tt, {| buffer_ := buffer_ s; tail := v; head := head s |}).

(** [head.compare_exchange_strong(expected, desired)]: the result and the
    value of [expected] afterwards. *)
Definition compare_exchange_head (expected desired : Z) : M St (bool * Z) :=
  fun s =>
    if head s =? expected
    then Done ((true, expected),
               {| buffer_ := buffer_ s; tail := tail s; head := desired |})
    else Done ((false, head s), s).

Definition read_slot (i : Z) : M St T :=
  fun s => match slot (buffer_ s) i with
           | Some x => Done (x, s)
           | None => OutOfBounds
           end.

Definition write_slot (i : Z) (v : T) : M St unit :=
  fun s => match slot (buffer_ s) i with
           | Some _ =>
               Done (tt, {| buffer_ := <[Z.to_nat i := v]> (buffer_ s);
                            tail := tail s; head := head s |})
           | None => OutOfBounds
           end.

(** The eviction loop of [Push] under [Overwrite] (lines 50-55). *)
Fixpoint evict (fuel : nat) (next_tail current_head next_head : Z) : M St unit :=
  match fuel with
  | O => out_of_fuel
  | S fuel' =>
      '(exchanged, current_head) <- compare_exchange_head current_head next_head;;
      if exchanged then ret tt
      else if negb (next_tail =? current_head) then ret tt
      else evict fuel' next_tail current_head
                 (Z.land (SizeT.add current_head 1) Mask)
  end.

Definition Push_fuel (fuel : nat) (value : T) : M St bool :=
  current_tail <- load_tail;;
  let next_tail := Z.land (SizeT.add current_tail 1) Mask in
  current_head <- load_head;;
  let publish : M St bool :=
    _ <- write_slot current_tail value;;
    _ <- store_tail next_tail;;
    ret true in
  if next_tail =? current_head then
    match Policy with
    | Reject => ret false
    | Overwrite =>
        let next_head := Z.land (SizeT.add current_head 1) Mask in
        _ <- evict fuel next_tail current_head next_head;;
        publish
    end
  else publish.

(** The loop of [Pop] (lines 76-87). *)
Fixpoint Pop_loop (fuel : nat) (current_head : Z) : M St (option T) :=
  match fuel with
  | O => out_of_fuel
  | S fuel' =>
      t <- load_tail;;
      if current_head =? t then ret None
      else
        potential_value <- read_slot current_head;;
        let next_head := Z.land (SizeT.add current_head 1) Mask in
        '(exchanged, current_head) <- compare_exchange_head current_head next_head;;
        if exchanged then ret (Some potential_value)
        else Pop_loop fuel' current_head
  end.

Definition Pop_fuel (fuel : nat) : M St (option T) :=
  current_head <- load_head;;
  Pop_loop fuel current_head.

(** In a sequential execution nothing changes [head] between its load and
    the compare-exchange, so one turn of either loop is enough;
    [Push_fuel_stable] and [Pop_fuel_stable] below show that more fuel
    never changes the result. *)
Definition Push (value : T) : M St bool := Push_fuel 1 value.
Definition Pop : M St (option T) := Pop_fuel 1.

Definition Empty : M St bool :=
  h <- load_head;;
  t <- load_tail;;
  ret (h =? t).

Definition Front : M St T :=
  e <- Empty;;
  if e then assertion_failure
  else
    h <- load_head;;
    read_slot h.

Definition Size : M St Z :=
  t <- load_tail;;
  h <- load_head;;
  ret (Z.land (SizeT.sub t h) Mask).

(** *** Observers used in the statements *)

(** The test [next_tail == current_head] of [Push]. *)
Definition full (s : St) : bool :=
  Z.land (SizeT.add (tail s) 1) Mask =? head s.

(** The value [Size()] returns. *)
Definition size (s : St) : Z := Z.land (SizeT.sub (tail s) (head s)) Mask.

(** The [n] slots met when walking forward from index [i]. *)
Fixpoint walk (buf : list T) (i : Z) (n : nat) : list T :=
  match n with
  | O => []
  | S n' =>
      match slot buf i with
      | Some x => x :: walk buf (Z.land (SizeT.add i 1) Mask) n'
      | None => []
      end
  end.

(** The queued elements, oldest first: the slots from [head] up to
    [tail]. *)
Definition contents (s : St) : list T :=
  walk (buffer_ s) (head s) (Z.to_nat (size s)).

(** *** Sequences of calls *)

Definition perform (c : call T) : M St (reply T) :=
  match c with
  | CallPush v => b <- Push v;; ret (PushReturned b)
  | CallPop => r <- Pop;; ret (PopReturned r)
  end.

Fixpoint run (cs : list (call T)) : M St (list (reply T)) :=
  match cs with
  | [] => ret []
  | c :: cs' =>
      r <- perform c;;
      rs <- run cs';;
      ret (r :: rs)
  end.

(** No [Push] of the sequence finds the buffer full. *)
Fixpoint overflow_free (cs : list (call T)) (s : St) : bool :=
  match cs with
  | [] => true
  | c :: cs' =>
      match c with CallPush _ => negb (full s) | CallPop => true end
      && match perform c s with
         | Done (_, s') => overflow_free cs' s'
         | _ => false
         end
  end.

Definition reachable (zero : T) (s : St) : Prop :=
  exists cs rs, run cs (init zero) = Done (rs, s).

(** The state invariant: the array has [Capacity] slots and both indices
    are inside it. *)
Definition wf (s : St) : Prop :=
  length (buffer_ s) = Z.to_nat Capacity
  /\ 0 <= head s < Capacity
  /\ 0 <= tail s < Capacity.
End Def.
End RB.

(** The values pushed by a sequence of calls, and the values popped
    according to the replies. *)
Definition pushed {T : Type} (cs : list (call T)) : list T :=
  omap (fun c => match c with CallPush v => Some v | CallPop => None end) cs.

Definition popped {T : Type} (rs : list (reply T)) : list T :=
  omap (fun r => match r with PopReturned r => r | PushReturned _ => None end) rs.

(** ** SPSC.hpp *)

Record SPSCRingBuffer (T : Type) : Type := mkSPSCRingBuffer {
  spsc_buffer_ : list T;
  spsc_tail : Z;
  spsc_head : Z;
  drop_count : Z
}.
Arguments mkSPSCRingBuffer {T} _ _ _ _.
Arguments spsc_buffer_ {T} _.
Arguments spsc_tail {T} _.
Arguments spsc_head {T} _.
Arguments drop_count {T} _.

Module SPSC.
Section Def.
Context {T : Type}.
Variable Capacity : Z.

Local Abbreviation St := (SPSCRingBuffer T).

Definition Mask : Z := SizeT.sub Capacity 1.

Definition init (zero : T) : St :=
  {| spsc_buffer_ := replicate (Z.to_nat Capacity) zero;
     spsc_tail := 0; spsc_head := 0; drop_count := 0 |}.

Definition load_tail : M St Z := fun s => Done (spsc_tail s, s).
Definition load_head : M St Z := fun s => Done (spsc_head s, s).
Definition load_drop_count : M St Z := fun s => Done (drop_count s, s).

Definition store_tail (v : Z) : M St unit :=
  fun s => Done (tt, {| spsc_buffer_ := spsc_buffer_ s; spsc_tail := v;
                        spsc_head := spsc_head s; drop_count := drop_count s |}).

Definition store_head (v : Z) : M St unit :=
  fun s => Done (tt, {| spsc_buffer_ := spsc_buffer_ s; spsc_tail := spsc_tail s;
                        spsc_head := v; drop_count := drop_count s |}).

(** [drop_count.fetch_add(1)]: returns the value before the addition. *)
Definition fetch_add_drop_count (d : Z) : M St Z :=
  fun s => Done (drop_count s,
                 {| spsc_buffer_ := spsc_buffer_ s; spsc_tail := spsc_tail s;
                    spsc_head := spsc_head s;
                    drop_count := SizeT.add (drop_count s) d |}).

Definition read_slot (i : Z) : M St T :=
  fun s => match slot (spsc_buffer_ s) i with
           | Some x => Done (x, s)
           | None => OutOfBounds
           end.

Definition write_slot (i : Z) (v : T) : M St unit :=
  fun s => match slot (spsc_buffer_ s) i with
           | Some _ =>
               Done (tt, {| spsc_buffer_ := <[Z.to_nat i := v]> (spsc_buffer_ s);
                            spsc_tail := spsc_tail s; spsc_head := spsc_head s;
                            drop_count := drop_count s |})
           | None => OutOfBounds
           end.

Definition Push (value : T) : M St bool :=
  curr_tail <- load_tail;;
  let next_tail := Z.land (SizeT.add curr_tail 1) Mask in
  h <- load_head;;
  if next_tail =? h then
    _ <- fetch_add_drop_count 1;;
    ret false
  else
    _ <- write_slot curr_tail value;;
    _ <- store_tail next_tail;;
    ret true.

Definition Pop : M St (option T) :=
  curr_head <- load_head;;
  t <- load_tail;;
  if curr_head =? t then ret None
  else
    out_value <- read_slot curr_head;;
    _ <- store_head (Z.land (SizeT.add curr_head 1) Mask);;
    ret (Some out_value).

Definition GetDropCount : M St Z := load_drop_count.

Definition Empty : M St bool :=
  h <- load_head;;
  t <- load_tail;;
  ret (h =? t).

(** *** Observers used in the statements *)

Definition full (s : St) : bool :=
  Z.land (SizeT.add (spsc_tail s) 1) Mask =? spsc_head s.

(** The header has no [Size()]; this is [occupied_count] of the data
    model, [(tail - head) & mask]. *)
Definition occupied_count (s : St) : Z :=
  Z.land (SizeT.sub (spsc_tail s) (spsc_head s)) Mask.

Definition contents (s : St) : list T :=
  RB.walk Capacity (spsc_buffer_ s) (spsc_head s) (Z.to_nat (occupied_count s)).

(** *** Sequences of calls *)

Inductive call : Type :=
| CallPush (v : T) | CallPop | CallEmpty | CallGetDropCount.

Inductive reply : Type :=
| PushReturned (b : bool)
| PopReturned (r : option T)
| EmptyReturned (b : bool)
| GetDropCountReturned (n : Z).

Definition perform (c : call) : M St reply :=
  match c with
  | CallPush v => b <- Push v;; ret (PushReturned b)
  | CallPop => r <- Pop;; ret (PopReturned r)
  | CallEmpty => b <- Empty;; ret (EmptyReturned b)
  | CallGetDropCount => n <- GetDropCount;; ret (GetDropCountReturned n)
  end.

Fixpoint run (cs : list call) : M St (list reply) :=
  match cs with
  | [] => ret []
  | c :: cs' =>
      r <- perform c;;
      rs <- run cs';;
      ret (r :: rs)
  end.

Fixpoint overflow_free (cs : list call) (s : St) : bool :=
  match cs with
  | [] => true
  | c :: cs' =>
      match c with CallPush _ => negb (full s) | _ => true end
      && match perform c s with
         | Done (_, s') => overflow_free cs' s'
         | _ => false
         end
  end.

Definition reachable (zero : T) (s : St) : Prop :=
  exists cs rs, run cs (init zero) = Done (rs, s).

(** The slot array and the two indices, as a [RingBuffer]: the part of
    the object both headers share. *)
Definition core (s : St) : RingBuffer T :=
  {| buffer_ := spsc_buffer_ s; tail := spsc_tail s; head := spsc_head s |}.

Definition wf (s : St) : Prop :=
  RB.wf Capacity (core s) /\ 0 <= drop_count s < SizeT.modulus.

Definition pushed (cs : list call) : list T :=
  omap (fun c => match c with CallPush v => Some v | _ => None end) cs.

Definition popped (rs : list reply) : list T :=
  omap (fun r => match r with PopReturned r => r | _ => None end) rs.

(** The number of [Push] calls that returned [false]. *)
Definition is_failed_push (r : reply) : bool :=
  match r with PushReturned false => true | _ => false end.

Definition failed_pushes (rs : list reply) : Z :=
  Z.of_nat (length (List.filter is_failed_push rs)).
End Def.
End SPSC.

(** ** Further notions used in the statements *)

(** The values whose [Push] returned [true]. *)
Fixpoint stored_values {T : Type} (cs : list (call T)) (rs : list (reply T))
    : list T :=
  match cs, rs with
  | CallPush v :: cs', PushReturned true :: rs' => v :: stored_values cs' rs'
  | _ :: cs', _ :: rs' => stored_values cs' rs'
  | _, _ => []
  end.

Fixpoint spsc_stored_values {T : Type} (cs : list (SPSC.call (T := T)))
    (rs : list (SPSC.reply (T := T))) : list T :=
  match cs, rs with
  | SPSC.CallPush v :: cs', SPSC.PushReturned true :: rs' =>
      v :: spsc_stored_values cs' rs'
  | _ :: cs', _ :: rs' => spsc_stored_values cs' rs'
  | _, _ => []
  end.

(** A [RingBuffer] call and reply, as made on an [SPSCRingBuffer]. *)
Definition spsc_call_of {T : Type} (c : call T) : SPSC.call (T := T) :=
  match c with
  | CallPush v => SPSC.CallPush v
  | CallPop => SPSC.CallPop
  end.

Definition spsc_reply_of {T : Type} (r : reply T) : SPSC.reply (T := T) :=
  match r with
  | PushReturned b => SPSC.PushReturned b
  | PopReturned o => SPSC.PopReturned o
  end.

(** [n] rounds of one [Push(v)] followed by one [Pop]. *)
Fixpoint rounds {T : Type} (n : nat) (v : T) : list (call T) :=
  match n with
  | O => []
  | S n' => CallPush v :: CallPop :: rounds n' v
  end.

Fixpoint round_replies {T : Type} (n : nat) (v : T) : list (reply T) :=
  match n with
  | O => []
  | S n' => PushReturned true :: PopReturned (Some v) :: round_replies n' v
  end.

(** ** The queue the buffers are compared with

    A first-in first-out queue of unbounded length, as the specification
    describes the order of delivery: [Push(v)] appends [v] and returns
    [true]; [Pop] on an empty queue returns [false], and otherwise removes
    and returns the oldest element. *)

(** The replies of the queue [q] to the calls [cs]. *)
Fixpoint fifo_replies {T : Type} (q : list T) (cs : list (call T))
    : list (reply T) :=
  match cs with
  | [] => []
  | CallPush v :: cs' => PushReturned true :: fifo_replies (q ++ [v]) cs'
  | CallPop :: cs' =>
      match q with
      | [] => PopReturned None :: fifo_replies [] cs'
      | x :: q' => PopReturned (Some x) :: fifo_replies q' cs'
      end
  end.

(** The queue after the calls [cs]. *)
Fixpoint fifo_queue {T : Type} (q : list T) (cs : list (call T)) : list T :=
  match cs with
  | [] => q
  | CallPush v :: cs' => fifo_queue (q ++ [v]) cs'
  | CallPop :: cs' => fifo_queue (List.tl q) cs'
  end.

(** The same queue answering the calls of an [SPSCRingBuffer]; it drops
    nothing, so [GetDropCount()] stays at [d]. *)
Fixpoint spsc_fifo_replies {T : Type} (d : Z) (q : list T)
    (cs : list (SPSC.call (T := T))) : list (SPSC.reply (T := T)) :=
  match cs with
  | [] => []
  | SPSC.CallPush v :: cs' =>
      SPSC.PushReturned true :: spsc_fifo_replies d (q ++ [v]) cs'
  | SPSC.CallPop :: cs' =>
      match q with
      | [] => SPSC.PopReturned None :: spsc_fifo_replies d [] cs'
      | x :: q' => SPSC.PopReturned (Some x) :: spsc_fifo_replies d q' cs'
      end
  | SPSC.CallEmpty :: cs' =>
      SPSC.EmptyReturned (match q with [] => true | _ :: _ => false end)
        :: spsc_fifo_replies d q cs'
  | SPSC.CallGetDropCount :: cs' =>
      SPSC.GetDropCountReturned d :: spsc_fifo_replies d q cs'
  end.

Fixpoint spsc_fifo_queue {T : Type} (q : list T)
    (cs : list (SPSC.call (T := T))) : list T :=
  match cs with
  | [] => q
  | SPSC.CallPush v :: cs' => spsc_fifo_queue (q ++ [v]) cs'
  | SPSC.CallPop :: cs' => spsc_fifo_queue (List.tl q) cs'
  | _ :: cs' => spsc_fifo_queue q cs'
  end.

(** * Arithmetic of the indices *)

Lemma modulus_value : SizeT.modulus = 18446744073709551616.
Proof. reflexivity. Qed.

Lemma wrap_small (x : Z) : 0 <= x < SizeT.modulus -> SizeT.wrap x = x.
Proof. intros H. unfold SizeT.wrap. apply Z.mod_small. exact H. Qed.

Lemma pow2_below_modulus (k : Z) : 0 <= k < 64 -> 0 < 2 ^ k <= 2 ^ 63.
Proof.
  intros Hk. split.
  - apply Z.pow_pos_nonneg; lia.
  - apply Z.pow_le_mono_r; lia.
Qed.

Lemma pow2_accepted (k : Z) : 0 <= k < 64 -> accepts (2 ^ k) = true.
Proof.
  intros Hk. pose proof (pow2_below_modulus k Hk) as Hp.
  assert (H63 : 2 ^ 63 = 9223372036854775808) by reflexivity.
  unfold accepts, SizeT.representable, capacity_assert, SizeT.sub.
  rewrite wrap_small by (rewrite modulus_value; lia).
  replace (2 ^ k - 1) with (Z.ones k) by (rewrite Z.ones_equiv; lia).
  rewrite Z.land_ones by lia.
  rewrite Z.mod_same by lia.
  rewrite modulus_value.
  repeat (apply andb_true_iff; split); try apply negb_true_iff; lia.
Qed.

Lemma accepted_pow2 (C : Z) :
  accepts C = true -> exists k, 0 <= k < 64 /\ C = 2 ^ k.
Proof.
  unfold accepts, SizeT.representable, capacity_assert, SizeT.sub.
  rewrite modulus_value.
  intros H.
  apply andb_true_iff in H as [Hr Ha].
  apply andb_true_iff in Hr as [Hr0 Hr1].
  apply andb_true_iff in Ha as [Hn Hl].
  apply negb_true_iff in Hn.
  assert (Hpos : 0 < C) by lia.
  rewrite wrap_small in Hl by (rewrite modulus_value; lia).
  apply Z.eqb_eq in Hl.
  destruct (Z.log2_spec_alt C Hpos) as (r & HC & Hr).
  pose proof (Z.log2_nonneg C) as Hk0.
  assert (Hk : Z.log2 C < 64).
  { apply Z.log2_lt_pow2; [lia|]. change (2 ^ 64) with 18446744073709551616. lia. }
  exists (Z.log2 C). split; [lia|].
  destruct (Z.eq_dec r 0) as [->|Hr0']; [lia|].
  exfalso.
  assert (Hb1 : Z.testbit C (Z.log2 C) = true) by (apply Z.bit_log2; lia).
  assert (Hb2 : Z.testbit (C - 1) (Z.log2 C) = true).
  { assert (Hl2 : Z.log2 (C - 1) = Z.log2 C).
    { apply (Z.log2_unique' (C - 1) (Z.log2 C) (r - 1)); lia. }
    rewrite <- Hl2. apply Z.bit_log2. lia. }
  assert (Hb : Z.testbit (Z.land C (C - 1)) (Z.log2 C) = true).
  { rewrite Z.land_spec, Hb1, Hb2. reflexivity. }
  rewrite Hl, Z.bits_0 in Hb. discriminate.
Qed.

Section IndexArithmetic.
Variable Capacity : Z.
Hypothesis Hacc : accepts Capacity = true.

Lemma Capacity_bounds : 1 <= Capacity <= 2 ^ 63.
Proof using Hacc.
  destruct (accepted_pow2 _ Hacc) as (k & Hk & ->).
  pose proof (pow2_below_modulus k Hk). lia.
Qed.

Lemma Mask_value : RB.Mask Capacity = Capacity - 1.
Proof using Hacc.
  pose proof Capacity_bounds as Hb.
  change (2 ^ 63) with 9223372036854775808 in Hb.
  unfold RB.Mask, SizeT.sub. apply wrap_small. rewrite modulus_value. lia.
Qed.

Lemma land_Mask (x : Z) : Z.land x (RB.Mask Capacity) = x mod Capacity.
Proof using Hacc.
  rewrite Mask_value.
  destruct (accepted_pow2 _ Hacc) as (k & Hk & ->).
  replace (2 ^ k - 1) with (Z.ones k) by (rewrite Z.ones_equiv; lia).
  apply Z.land_ones. lia.
Qed.

Lemma Capacity_divides_modulus : (Capacity | SizeT.modulus).
Proof using Hacc.
  destruct (accepted_pow2 _ Hacc) as (k & Hk & ->).
  exists (2 ^ (64 - k)). unfold SizeT.modulus, SizeT.bits.
  rewrite <- Z.pow_add_r by lia. f_equal. lia.
Qed.

Lemma land_wrap_Mask (x : Z) :
  Z.land (SizeT.wrap x) (RB.Mask Capacity) = x mod Capacity.
Proof using Hacc.
  rewrite land_Mask. unfold SizeT.wrap.
  apply Z.mod_mod_divide, Capacity_divides_modulus.
Qed.

(** [(i + 1) & Mask] *)
Lemma next_index (i : Z) :
  Z.land (SizeT.add i 1) (RB.Mask Capacity) = (i + 1) mod Capacity.
Proof using Hacc. apply land_wrap_Mask. Qed.

(** [(t - h) & Mask] *)
Lemma distance (t h : Z) :
  Z.land (SizeT.sub t h) (RB.Mask Capacity) = (t - h) mod Capacity.
Proof using Hacc. apply land_wrap_Mask. Qed.

Lemma next_index_range (i : Z) :
  0 <= Z.land (SizeT.add i 1) (RB.Mask Capacity) < Capacity.
Proof using Hacc.
  rewrite next_index. apply Z.mod_pos_bound. pose proof Capacity_bounds. lia.
Qed.

Lemma distance_range (t h : Z) :
  0 <= Z.land (SizeT.sub t h) (RB.Mask Capacity) <= Capacity - 1.
Proof using Hacc.
  rewrite distance.
  pose proof Capacity_bounds.
  pose proof (Z.mod_pos_bound (t - h) Capacity). lia.
Qed.

(** Distance from [h] to [t] for indices inside the array. *)
Lemma distance_zero (t h : Z) :
  0 <= h < Capacity -> 0 <= t < Capacity ->
  ((t - h) mod Capacity = 0 <-> h = t).
Proof using Hacc.
  intros Hh Ht. split.
  - intros Hz.
    destruct (Z_lt_le_dec t h).
    + replace (t - h) with ((t - h + Capacity) + (-1) * Capacity) in Hz by lia.
      rewrite Z.mod_add in Hz by lia.
      rewrite Z.mod_small in Hz by lia. lia.
    + rewrite Z.mod_small in Hz by lia. lia.
  - intros ->. rewrite Z.sub_diag. apply Z.mod_0_l. lia.
Qed.

Lemma distance_next (t h : Z) :
  0 <= h < Capacity -> 0 <= t < Capacity ->
  (t + 1) mod Capacity <> h ->
  ((t + 1) mod Capacity - h) mod Capacity = (t - h) mod Capacity + 1.
Proof using Hacc.
  intros Hh Ht Hne.
  rewrite Zminus_mod_idemp_l.
  destruct (Z_lt_le_dec t h).
  - replace (t + 1 - h) with ((t + 1 - h + Capacity) + (-1) * Capacity) by lia.
    replace (t - h) with ((t - h + Capacity) + (-1) * Capacity) by lia.
    rewrite !Z.mod_add by lia.
    assert (t + 1 <> h).
    { intros E. apply Hne. rewrite E. apply Z.mod_small. lia. }
    rewrite !Z.mod_small by lia. lia.
  - assert (t - h + 1 <> Capacity).
    { intros E. apply Hne.
      assert (h = 0 /\ t = Capacity - 1) as [-> ->] by lia.
      replace (Capacity - 1 + 1) with Capacity by lia.
      apply Z.mod_same. lia. }
    rewrite !Z.mod_small by lia. lia.
Qed.

Lemma distance_after_head (t h : Z) :
  0 <= h < Capacity -> 0 <= t < Capacity -> h <> t ->
  (t - (h + 1) mod Capacity) mod Capacity = (t - h) mod Capacity - 1.
Proof using Hacc.
  intros Hh Ht Hne.
  rewrite Zminus_mod_idemp_r.
  destruct (Z_lt_le_dec t h).
  - replace (t - (h + 1)) with ((t - h - 1 + Capacity) + (-1) * Capacity) by lia.
    replace (t - h) with ((t - h + Capacity) + (-1) * Capacity) by lia.
    rewrite !Z.mod_add by lia.
    rewrite !Z.mod_small by lia. lia.
  - rewrite !Z.mod_small by lia. lia.
Qed.

(** The buffer is full exactly when it holds [Capacity - 1] elements. *)
Lemma full_iff_distance (t h : Z) :
  0 <= h < Capacity -> 0 <= t < Capacity ->
  ((t + 1) mod Capacity = h <-> (t - h) mod Capacity = Capacity - 1).
Proof using Hacc.
  intros Hh Ht. pose proof Capacity_bounds as Hb. split.
  - intros E.
    destruct (Z.eq_dec t (Capacity - 1)) as [->|].
    + replace (Capacity - 1 + 1) with Capacity in E by lia.
      rewrite Z.mod_same in E by lia. subst h.
      rewrite Z.sub_0_r. apply Z.mod_small. lia.
    + rewrite Z.mod_small in E by lia. subst h.
      replace (t - (t + 1)) with ((Capacity - 1) + (-1) * Capacity) by lia.
      rewrite Z.mod_add by lia. apply Z.mod_small. lia.
  - intros E.
    destruct (Z_lt_le_dec t h).
    + replace (t - h) with ((t - h + Capacity) + (-1) * Capacity) in E by lia.
      rewrite Z.mod_add in E by lia.
      rewrite Z.mod_small in E by lia.
      rewrite Z.mod_small by lia. lia.
    + rewrite Z.mod_small in E by lia.
      assert (h = 0 /\ t = Capacity - 1) as [-> ->] by lia.
      replace (Capacity - 1 + 1) with Capacity by lia.
      apply Z.mod_same. lia.
Qed.
End IndexArithmetic.

(** * Slots *)

Section Slots.
Context {T : Type}.
Implicit Types (buf : list T) (i j : Z).

Lemma slot_Some buf i :
  0 <= i < Z.of_nat (length buf) -> exists x, slot buf i = Some x.
Proof.
  intros Hi. unfold slot.
  destruct (Z.ltb_spec i 0) as [|_]; [lia|].
  apply lookup_lt_is_Some_2. lia.
Qed.

Lemma slot_Some_range buf i x :
  slot buf i = Some x -> 0 <= i < Z.of_nat (length buf).
Proof.
  unfold slot. destruct (Z.ltb_spec i 0) as [|Hi]; [discriminate|].
  intros H. apply lookup_lt_Some in H. lia.
Qed.

Lemma slot_insert_eq buf i (v : T) :
  0 <= i < Z.of_nat (length buf) ->
  slot (<[Z.to_nat i := v]> buf) i = Some v.
Proof.
  intros Hi. unfold slot.
  destruct (Z.ltb_spec i 0) as [|_]; [lia|].
  apply list_lookup_insert_eq. lia.
Qed.

Lemma slot_insert_ne buf i j (v : T) :
  0 <= i -> i <> j ->
  slot (<[Z.to_nat i := v]> buf) j = slot buf j.
Proof.
  intros Hi Hne. unfold slot.
  destruct (Z.ltb_spec j 0) as [|Hj]; [reflexivity|].
  apply list_lookup_insert_ne. lia.
Qed.
End Slots.

(** * RingBuffer: what each member function does *)

Ltac unfold_rb_step :=
  unfold RB.Push, RB.Push_fuel, RB.Pop, RB.Pop_fuel, RB.Empty, RB.Front,
    RB.Size, RB.read_slot, RB.write_slot, RB.store_tail, RB.load_head,
    RB.load_tail, RB.compare_exchange_head, bind, ret, assertion_failure,
    out_of_fuel; cbn [RB.evict RB.Pop_loop buffer_ tail head].

Ltac unfold_rb := do 2 unfold_rb_step.

Section RingBufferFacts.
Context {T : Type}.
Variable Capacity : Z.
Hypothesis Hacc : accepts Capacity = true.

Implicit Types (s : RingBuffer T) (v : T) (Policy : OverflowPolicy).

Local Abbreviation next i := (Z.land (SizeT.add i 1) (RB.Mask Capacity)).

Lemma wf_init (zero : T) : RB.wf Capacity (RB.init Capacity zero).
Proof using Hacc.
  pose proof (Capacity_bounds _ Hacc).
  unfold RB.wf, RB.init; cbn. rewrite length_replicate. lia.
Qed.

Lemma wf_slot_head s :
  RB.wf Capacity s -> exists x, slot (buffer_ s) (head s) = Some x.
Proof. intros (Hl & Hh & Ht). apply slot_Some. lia. Qed.

Lemma wf_slot_tail s :
  RB.wf Capacity s -> exists x, slot (buffer_ s) (tail s) = Some x.
Proof. intros (Hl & Hh & Ht). apply slot_Some. lia. Qed.

(** More fuel never changes what [Push] and [Pop] do. *)
Lemma Push_fuel_stable Policy (n : nat) v s :
  RB.Push_fuel Capacity Policy (S n) v s = RB.Push Capacity Policy v s.
Proof.
  unfold_rb.
  destruct (next (tail s) =? head s); [|reflexivity].
  destruct Policy; [reflexivity|].
  rewrite Z.eqb_refl. reflexivity.
Qed.

Lemma Pop_fuel_stable (n : nat) s :
  RB.Pop_fuel Capacity (S n) s = RB.Pop Capacity s.
Proof.
  unfold_rb.
  destruct (head s =? tail s); [reflexivity|].
  destruct (slot (buffer_ s) (head s)); [|reflexivity].
  rewrite Z.eqb_refl. reflexivity.
Qed.

Lemma Push_not_full Policy v s :
  RB.wf Capacity s -> RB.full Capacity s = false ->
  RB.Push Capacity Policy v s =
    Done (true, {| buffer_ := <[Z.to_nat (tail s) := v]> (buffer_ s);
                   tail := next (tail s);
                   head := head s |}).
Proof.
  intros Hwf Hfull. unfold RB.full in Hfull. unfold_rb.
  rewrite Hfull.
  destruct (wf_slot_tail s Hwf) as [x ->]. reflexivity.
Qed.

Lemma Push_full_Reject v s :
  RB.full Capacity s = true ->
  RB.Push Capacity Reject v s = Done (false, s).
Proof.
  intros Hfull. unfold RB.full in Hfull. unfold_rb.
  rewrite Hfull. reflexivity.
Qed.

Lemma Push_full_Overwrite v s :
  RB.wf Capacity s -> RB.full Capacity s = true ->
  RB.Push Capacity Overwrite v s =
    Done (true, {| buffer_ := <[Z.to_nat (tail s) := v]> (buffer_ s);
                   tail := next (tail s);
                   head := next (head s) |}).
Proof.
  intros Hwf Hfull. unfold RB.full in Hfull. unfold_rb.
  rewrite Hfull, Z.eqb_refl. cbn.
  destruct (wf_slot_tail s Hwf) as [x ->]. reflexivity.
Qed.

Lemma Pop_empty s :
  head s = tail s -> RB.Pop Capacity s = Done (None, s).
Proof.
  intros E. unfold_rb. rewrite E, Z.eqb_refl. reflexivity.
Qed.

Lemma Pop_nonempty s x :
  head s <> tail s -> slot (buffer_ s) (head s) = Some x ->
  RB.Pop Capacity s =
    Done (Some x, {| buffer_ := buffer_ s; tail := tail s;
                     head := next (head s) |}).
Proof.
  intros Hne Hx. unfold_rb.
  destruct (Z.eqb_spec (head s) (tail s)) as [|_]; [contradiction|].
  rewrite Hx, Z.eqb_refl. reflexivity.
Qed.

(** The invariant is kept by every call. *)
Lemma Push_wf Policy v s b s' :
  RB.wf Capacity s -> RB.Push Capacity Policy v s = Done (b, s') ->
  RB.wf Capacity s'.
Proof using Hacc.
  intros Hwf HP.
  pose proof Hwf as (Hl & Hh & Ht).
  pose proof (next_index_range _ Hacc (tail s)) as Hnt.
  pose proof (next_index_range _ Hacc (head s)) as Hnh.
  destruct (RB.full Capacity s) eqn:Hfull.
  - destruct Policy.
    + rewrite Push_full_Reject in HP by assumption.
      injection HP as <- <-. exact Hwf.
    + rewrite Push_full_Overwrite in HP by assumption.
      injection HP as <- <-. unfold RB.wf; cbn.
      rewrite length_insert. auto.
  - rewrite Push_not_full in HP by assumption.
    injection HP as <- <-. unfold RB.wf; cbn.
    rewrite length_insert. auto.
Qed.

Lemma Pop_wf s r s' :
  RB.wf Capacity s -> RB.Pop Capacity s = Done (r, s') ->
  RB.wf Capacity s'.
Proof using Hacc.
  intros Hwf HP.
  pose proof Hwf as (Hl & Hh & Ht).
  pose proof (next_index_range _ Hacc (head s)) as Hnh.
  destruct (Z.eq_dec (head s) (tail s)) as [E|Hne].
  - rewrite Pop_empty in HP by assumption. injection HP as <- <-. exact Hwf.
  - destruct (wf_slot_head s Hwf) as [x Hx].
    rewrite (Pop_nonempty s x) in HP by assumption.
    injection HP as <- <-. unfold RB.wf; cbn. auto.
Qed.

(** Every call returns: no assertion fails, no slot access is out of
    range, no loop runs out of fuel. *)
Lemma Push_returns Policy v s :
  RB.wf Capacity s -> exists b s', RB.Push Capacity Policy v s = Done (b, s').
Proof.
  intros Hwf.
  destruct (RB.full Capacity s) eqn:Hfull.
  - destruct Policy.
    + rewrite Push_full_Reject by assumption. eauto.
    + rewrite Push_full_Overwrite by assumption. eauto.
  - rewrite Push_not_full by assumption. eauto.
Qed.

Lemma Pop_returns s :
  RB.wf Capacity s -> exists r s', RB.Pop Capacity s = Done (r, s').
Proof.
  intros Hwf.
  destruct (Z.eq_dec (head s) (tail s)) as [E|Hne].
  - rewrite Pop_empty by assumption. eauto.
  - destruct (wf_slot_head s Hwf) as [x Hx].
    rewrite (Pop_nonempty s x) by assumption. eauto.
Qed.

Lemma perform_wf Policy c s r s' :
  RB.wf Capacity s -> RB.perform Capacity Policy c s = Done (r, s') ->
  RB.wf Capacity s'.
Proof using Hacc.
  intros Hwf HP. destruct c as [v|]; unfold RB.perform, bind, ret in HP.
  - destruct (RB.Push Capacity Policy v s) as [[b s1]| | |] eqn:E;
      try discriminate.
    injection HP as <- <-. eapply Push_wf; eauto.
  - destruct (RB.Pop Capacity s) as [[o s1]| | |] eqn:E; try discriminate.
    injection HP as <- <-. eapply Pop_wf; eauto.
Qed.

Lemma perform_returns Policy c s :
  RB.wf Capacity s -> exists r s', RB.perform Capacity Policy c s = Done (r, s').
Proof.
  intros Hwf. destruct c as [v|]; unfold RB.perform, bind, ret.
  - destruct (Push_returns Policy v s Hwf) as (b & s' & ->). eauto.
  - destruct (Pop_returns s Hwf) as (r & s' & ->). eauto.
Qed.

Lemma run_cons Policy c cs s :
  RB.run Capacity Policy (c :: cs) s =
    match RB.perform Capacity Policy c s with
    | Done (r, s1) =>
        match RB.run Capacity Policy cs s1 with
        | Done (rs, s2) => Done (r :: rs, s2)
        | AssertionFailed => AssertionFailed
        | OutOfBounds => OutOfBounds
        | OutOfFuel => OutOfFuel
        end
    | AssertionFailed => AssertionFailed
    | OutOfBounds => OutOfBounds
    | OutOfFuel => OutOfFuel
    end.
Proof.
  cbn [RB.run]. unfold bind, ret.
  destruct (RB.perform Capacity Policy c s) as [[r s1]| | |]; reflexivity.
Qed.

Lemma run_wf Policy cs : forall s rs s',
  RB.wf Capacity s -> RB.run Capacity Policy cs s = Done (rs, s') ->
  RB.wf Capacity s'.
Proof using Hacc.
  induction cs as [|c cs IH]; intros s rs s' Hwf HR.
  - injection HR as <- <-. exact Hwf.
  - rewrite run_cons in HR.
    destruct (RB.perform Capacity Policy c s) as [[r s1]| | |] eqn:E;
      try discriminate.
    destruct (RB.run Capacity Policy cs s1) as [[rs1 s2]| | |] eqn:E2;
      try discriminate.
    injection HR as <- <-.
    eapply IH; [|exact E2]. eapply perform_wf; eauto.
Qed.

Lemma run_returns Policy cs : forall s,
  RB.wf Capacity s -> exists rs s', RB.run Capacity Policy cs s = Done (rs, s').
Proof using Hacc.
  induction cs as [|c cs IH]; intros s Hwf.
  - cbn. unfold ret. eauto.
  - rewrite run_cons.
    destruct (perform_returns Policy c s Hwf) as (r & s1 & E). rewrite E.
    destruct (IH s1) as (rs & s2 & E2); [eapply perform_wf; eauto|].
    rewrite E2. eauto.
Qed.

Lemma reachable_wf Policy (zero : T) s :
  RB.reachable Capacity Policy zero s -> RB.wf Capacity s.
Proof using Hacc.
  intros (cs & rs & HR). eapply run_wf; [|exact HR]. apply wf_init.
Qed.
End RingBufferFacts.

(** * The queued elements *)

Section Walk.
Context {T : Type}.
Variable Capacity : Z.
Hypothesis Hacc : accepts Capacity = true.

Implicit Types (buf : list T) (i t : Z) (n : nat).

Lemma walk_length buf : forall n i,
  length buf = Z.to_nat Capacity -> 0 <= i < Capacity ->
  length (RB.walk Capacity buf i n) = n.
Proof using Hacc.
  induction n as [|n IH]; intros i Hl Hi; [reflexivity|].
  cbn [RB.walk].
  destruct (slot_Some buf i) as [x ->]; [lia|].
  cbn. f_equal. apply IH; [exact Hl|]. apply next_index_range, Hacc.
Qed.

Lemma walk_snoc buf x : forall n i,
  length buf = Z.to_nat Capacity -> 0 <= i < Capacity ->
  slot buf ((i + Z.of_nat n) mod Capacity) = Some x ->
  RB.walk Capacity buf i (S n) = RB.walk Capacity buf i n ++ [x].
Proof using Hacc.
  induction n as [|n IH]; intros i Hl Hi Hx.
  - cbn [RB.walk]. rewrite Z.add_0_r, Z.mod_small in Hx by lia.
    rewrite Hx. reflexivity.
  - change (RB.walk Capacity buf i (S (S n))) with
      (match slot buf i with
       | Some y => y :: RB.walk Capacity buf
                          (Z.land (SizeT.add i 1) (RB.Mask Capacity)) (S n)
       | None => []
       end).
    destruct (slot_Some buf i) as [y Hy]; [lia|].
    rewrite Hy.
    rewrite (IH (Z.land (SizeT.add i 1) (RB.Mask Capacity))).
    + cbn [RB.walk]. rewrite Hy. reflexivity.
    + exact Hl.
    + apply next_index_range, Hacc.
    + rewrite next_index by exact Hacc.
      rewrite Zplus_mod_idemp_l.
      replace (i + 1 + Z.of_nat n) with (i + Z.of_nat (S n)) by lia.
      exact Hx.
Qed.

(** Writing the slot the walk stops in front of does not change the
    walk. *)
Lemma walk_insert_beyond buf t (v : T) : forall n i,
  0 <= i < Capacity -> Z.of_nat n < Capacity ->
  t = (i + Z.of_nat n) mod Capacity ->
  RB.walk Capacity (<[Z.to_nat t := v]> buf) i n = RB.walk Capacity buf i n.
Proof using Hacc.
  induction n as [|n IH]; intros i Hi Hn Ht; [reflexivity|].
  cbn [RB.walk].
  assert (Hti : t <> i).
  { subst t. intros E.
    destruct (Z_lt_le_dec (i + Z.of_nat (S n)) Capacity).
    - rewrite Z.mod_small in E by lia. lia.
    - replace (i + Z.of_nat (S n))
        with ((i + Z.of_nat (S n) - Capacity) + 1 * Capacity) in E by lia.
      rewrite Z.mod_add, Z.mod_small in E by lia. lia. }
  assert (0 <= t < Capacity) by (subst t; apply Z.mod_pos_bound; lia).
  rewrite slot_insert_ne by lia.
  destruct (slot buf i) as [y|]; [|reflexivity].
  f_equal. apply IH.
  - apply next_index_range, Hacc.
  - lia.
  - rewrite next_index by exact Hacc.
    rewrite Zplus_mod_idemp_l. subst t. f_equal. lia.
Qed.
End Walk.

Section RingBufferContents.
Context {T : Type}.
Variable Capacity : Z.
Hypothesis Hacc : accepts Capacity = true.

Implicit Types (s : RingBuffer T) (v : T) (Policy : OverflowPolicy).

Local Abbreviation next i := (Z.land (SizeT.add i 1) (RB.Mask Capacity)).

Lemma size_value s : RB.size Capacity s = (tail s - head s) mod Capacity.
Proof using Hacc. apply distance, Hacc. Qed.

Lemma size_range s : 0 <= RB.size Capacity s <= Capacity - 1.
Proof using Hacc. apply distance_range, Hacc. Qed.

Lemma full_size s :
  RB.wf Capacity s ->
  (RB.full Capacity s = true <-> RB.size Capacity s = Capacity - 1).
Proof using Hacc.
  intros (Hl & Hh & Ht). unfold RB.full.
  rewrite size_value, next_index, Z.eqb_eq by exact Hacc.
  apply full_iff_distance; assumption.
Qed.

Lemma not_full_size s :
  RB.wf Capacity s ->
  (RB.full Capacity s = false <-> RB.size Capacity s <> Capacity - 1).
Proof using Hacc.
  intros Hwf. rewrite <- full_size by exact Hwf.
  destruct (RB.full Capacity s); split; congruence.
Qed.

Lemma empty_size s :
  RB.wf Capacity s -> (head s = tail s <-> RB.size Capacity s = 0).
Proof using Hacc.
  intros (Hl & Hh & Ht). rewrite size_value.
  symmetry. apply distance_zero; assumption.
Qed.

Lemma contents_length s :
  RB.wf Capacity s ->
  Z.of_nat (length (RB.contents Capacity s)) = RB.size Capacity s.
Proof using Hacc.
  intros (Hl & Hh & Ht). unfold RB.contents.
  rewrite (walk_length _ Hacc) by assumption.
  pose proof (size_range s). lia.
Qed.

Lemma contents_init (zero : T) : RB.contents Capacity (RB.init Capacity zero) = [].
Proof using Hacc.
  unfold RB.contents. rewrite size_value. cbn.
  rewrite Z.mod_0_l by (pose proof (Capacity_bounds _ Hacc); lia).
  reflexivity.
Qed.

(** Storing at [tail] and advancing [tail] appends to the queue. *)
Lemma contents_publish s v :
  RB.wf Capacity s -> RB.full Capacity s = false ->
  RB.contents Capacity
    {| buffer_ := <[Z.to_nat (tail s) := v]> (buffer_ s);
       tail := next (tail s); head := head s |}
  = RB.contents Capacity s ++ [v].
Proof using Hacc.
  intros Hwf Hfull. pose proof Hwf as (Hl & Hh & Ht).
  pose proof (size_range s) as Hsz.
  assert (Hne : (tail s + 1) mod Capacity <> head s).
  { unfold RB.full in Hfull. rewrite next_index in Hfull by exact Hacc.
    apply Z.eqb_neq, Hfull. }
  unfold RB.contents. rewrite !size_value. cbn [buffer_ tail head].
  rewrite next_index by exact Hacc.
  rewrite distance_next by (exact Hacc || assumption).
  rewrite size_value in Hsz.
  set (n := Z.to_nat ((tail s - head s) mod Capacity)).
  assert (Hn : Z.of_nat n = (tail s - head s) mod Capacity) by (subst n; lia).
  assert (Hback : (head s + Z.of_nat n) mod Capacity = tail s).
  { rewrite Hn, Zplus_mod_idemp_r.
    replace (head s + (tail s - head s)) with (tail s) by lia.
    apply Z.mod_small, Ht. }
  replace (Z.to_nat ((tail s - head s) mod Capacity + 1)) with (S n) by lia.
  rewrite (walk_snoc _ Hacc _ v).
  - f_equal. apply (walk_insert_beyond _ Hacc); [assumption| |congruence].
    assert (Hnf : RB.size Capacity s <> Capacity - 1)
      by (apply not_full_size; assumption).
    rewrite size_value in Hnf. lia.
  - rewrite length_insert. exact Hl.
  - exact Hh.
  - rewrite Hback. apply slot_insert_eq. lia.
Qed.

(** Advancing [head] drops the oldest element. *)
Lemma contents_advance s x :
  RB.wf Capacity s -> head s <> tail s ->
  slot (buffer_ s) (head s) = Some x ->
  RB.contents Capacity s =
    x :: RB.contents Capacity
           {| buffer_ := buffer_ s; tail := tail s; head := next (head s) |}.
Proof using Hacc.
  intros Hwf Hne Hx. pose proof Hwf as (Hl & Hh & Ht).
  pose proof (size_range s) as Hsz.
  assert (Hnz : RB.size Capacity s <> 0).
  { intros E. apply Hne, empty_size; assumption. }
  unfold RB.contents. rewrite !size_value. cbn [buffer_ tail head].
  rewrite size_value in Hsz, Hnz.
  rewrite next_index by exact Hacc.
  rewrite distance_after_head by (exact Hacc || assumption).
  replace (Z.to_nat ((tail s - head s) mod Capacity))
    with (S (Z.to_nat ((tail s - head s) mod Capacity - 1))) by lia.
  cbn [RB.walk]. rewrite Hx, next_index by exact Hacc. reflexivity.
Qed.
End RingBufferContents.

(** * SPSCRingBuffer: what each member function does *)

Ltac unfold_spsc :=
  unfold SPSC.Push, SPSC.Pop, SPSC.Empty, SPSC.GetDropCount, SPSC.read_slot,
    SPSC.write_slot, SPSC.store_tail, SPSC.store_head, SPSC.load_head,
    SPSC.load_tail, SPSC.load_drop_count, SPSC.fetch_add_drop_count,
    bind, ret; cbn [spsc_buffer_ spsc_tail spsc_head drop_count].

Section SPSCFacts.
Context {T : Type}.
Variable Capacity : Z.
Hypothesis Hacc : accepts Capacity = true.

Implicit Types (s : SPSCRingBuffer T) (v : T).

Local Abbreviation next i := (Z.land (SizeT.add i 1) (SPSC.Mask Capacity)).

Lemma spsc_wf_init (zero : T) : SPSC.wf Capacity (SPSC.init Capacity zero).
Proof using Hacc.
  split.
  - apply (wf_init Capacity Hacc zero).
  - cbn. rewrite modulus_value. lia.
Qed.

Lemma spsc_contents_core s :
  SPSC.contents Capacity s = RB.contents Capacity (SPSC.core s).
Proof. reflexivity. Qed.

Lemma spsc_full_core s :
  SPSC.full Capacity s = RB.full Capacity (SPSC.core s).
Proof. reflexivity. Qed.

Lemma spsc_Push_not_full v s :
  SPSC.wf Capacity s -> SPSC.full Capacity s = false ->
  SPSC.Push Capacity v s =
    Done (true, {| spsc_buffer_ := <[Z.to_nat (spsc_tail s) := v]> (spsc_buffer_ s);
                   spsc_tail := next (spsc_tail s);
                   spsc_head := spsc_head s;
                   drop_count := drop_count s |}).
Proof.
  intros [Hwf _] Hfull. unfold SPSC.full in Hfull. unfold_spsc.
  rewrite Hfull.
  destruct (wf_slot_tail Capacity _ Hwf) as [x Hx]. cbn in Hx.
  rewrite Hx. reflexivity.
Qed.

Lemma spsc_Push_full v s :
  SPSC.full Capacity s = true ->
  SPSC.Push Capacity v s =
    Done (false, {| spsc_buffer_ := spsc_buffer_ s;
                    spsc_tail := spsc_tail s;
                    spsc_head := spsc_head s;
                    drop_count := SizeT.add (drop_count s) 1 |}).
Proof.
  intros Hfull. unfold SPSC.full in Hfull. unfold_spsc.
  rewrite Hfull. reflexivity.
Qed.

Lemma spsc_Pop_empty s :
  spsc_head s = spsc_tail s -> SPSC.Pop Capacity s = Done (None, s).
Proof.
  intros E. unfold_spsc. rewrite E, Z.eqb_refl. reflexivity.
Qed.

Lemma spsc_Pop_nonempty s x :
  spsc_head s <> spsc_tail s -> slot (spsc_buffer_ s) (spsc_head s) = Some x ->
  SPSC.Pop Capacity s =
    Done (Some x, {| spsc_buffer_ := spsc_buffer_ s;
                     spsc_tail := spsc_tail s;
                     spsc_head := next (spsc_head s);
                     drop_count := drop_count s |}).
Proof.
  intros Hne Hx. unfold_spsc.
  destruct (Z.eqb_spec (spsc_head s) (spsc_tail s)) as [|_]; [contradiction|].
  rewrite Hx. reflexivity.
Qed.

Lemma wrap_range (x : Z) : 0 <= SizeT.wrap x < SizeT.modulus.
Proof. unfold SizeT.wrap. apply Z.mod_pos_bound. rewrite modulus_value. lia. Qed.

Lemma spsc_Push_wf v s b s' :
  SPSC.wf Capacity s -> SPSC.Push Capacity v s = Done (b, s') ->
  SPSC.wf Capacity s'.
Proof using Hacc.
  intros Hwf HP. pose proof Hwf as [(Hl & Hh & Ht) Hd]. cbn in Hl, Hh, Ht.
  pose proof (next_index_range _ Hacc (spsc_tail s)) as Hnt.
  destruct (SPSC.full Capacity s) eqn:Hfull.
  - rewrite spsc_Push_full in HP by assumption.
    injection HP as <- <-. split; [split; cbn; auto|]. cbn.
    apply wrap_range.
  - rewrite spsc_Push_not_full in HP by assumption.
    injection HP as <- <-. split; [|exact Hd].
    unfold RB.wf; cbn. rewrite length_insert. auto.
Qed.

Lemma spsc_Pop_wf s r s' :
  SPSC.wf Capacity s -> SPSC.Pop Capacity s = Done (r, s') ->
  SPSC.wf Capacity s'.
Proof using Hacc.
  intros Hwf HP. pose proof Hwf as [Hc Hd].
  pose proof Hc as (Hl & Hh & Ht). cbn in Hl, Hh, Ht.
  pose proof (next_index_range _ Hacc (spsc_head s)) as Hnh.
  destruct (Z.eq_dec (spsc_head s) (spsc_tail s)) as [E|Hne].
  - rewrite spsc_Pop_empty in HP by assumption. injection HP as <- <-. exact Hwf.
  - destruct (wf_slot_head Capacity _ Hc) as [x Hx]. cbn in Hx.
    rewrite (spsc_Pop_nonempty s x) in HP by assumption.
    injection HP as <- <-. split; [|exact Hd]. unfold RB.wf; cbn. auto.
Qed.

Lemma spsc_Push_returns v s :
  SPSC.wf Capacity s -> exists b s', SPSC.Push Capacity v s = Done (b, s').
Proof.
  intros Hwf.
  destruct (SPSC.full Capacity s) eqn:Hfull.
  - rewrite spsc_Push_full by assumption. eauto.
  - rewrite spsc_Push_not_full by assumption. eauto.
Qed.

Lemma spsc_Pop_returns s :
  SPSC.wf Capacity s -> exists r s', SPSC.Pop Capacity s = Done (r, s').
Proof.
  intros [Hc Hd].
  destruct (Z.eq_dec (spsc_head s) (spsc_tail s)) as [E|Hne].
  - rewrite spsc_Pop_empty by assumption. eauto.
  - destruct (wf_slot_head Capacity _ Hc) as [x Hx]. cbn in Hx.
    rewrite (spsc_Pop_nonempty s x) by assumption. eauto.
Qed.

Lemma spsc_perform_returns c s :
  SPSC.wf Capacity s -> exists r s', SPSC.perform Capacity c s = Done (r, s').
Proof.
  intros Hwf. destruct c as [v| | |]; unfold SPSC.perform, bind, ret.
  - destruct (spsc_Push_returns v s Hwf) as (b & s' & ->). eauto.
  - destruct (spsc_Pop_returns s Hwf) as (r & s' & ->). eauto.
  - cbn. eauto.
  - cbn. eauto.
Qed.

Lemma spsc_perform_wf c s r s' :
  SPSC.wf Capacity s -> SPSC.perform Capacity c s = Done (r, s') ->
  SPSC.wf Capacity s'.
Proof using Hacc.
  intros Hwf HP. destruct c as [v| | |]; unfold SPSC.perform, bind, ret in HP.
  - destruct (SPSC.Push Capacity v s) as [[b s1]| | |] eqn:E; try discriminate.
    injection HP as <- <-. eapply spsc_Push_wf; eauto.
  - destruct (SPSC.Pop Capacity s) as [[o s1]| | |] eqn:E; try discriminate.
    injection HP as <- <-. eapply spsc_Pop_wf; eauto.
  - cbn in HP. injection HP as <- <-. exact Hwf.
  - cbn in HP. injection HP as <- <-. exact Hwf.
Qed.

Lemma spsc_run_cons c cs s :
  SPSC.run Capacity (c :: cs) s =
    match SPSC.perform Capacity c s with
    | Done (r, s1) =>
        match SPSC.run Capacity cs s1 with
        | Done (rs, s2) => Done (r :: rs, s2)
        | AssertionFailed => AssertionFailed
        | OutOfBounds => OutOfBounds
        | OutOfFuel => OutOfFuel
        end
    | AssertionFailed => AssertionFailed
    | OutOfBounds => OutOfBounds
    | OutOfFuel => OutOfFuel
    end.
Proof.
  cbn [SPSC.run]. unfold bind, ret.
  destruct (SPSC.perform Capacity c s) as [[r s1]| | |]; reflexivity.
Qed.

Lemma spsc_run_wf cs : forall s rs s',
  SPSC.wf Capacity s -> SPSC.run Capacity cs s = Done (rs, s') ->
  SPSC.wf Capacity s'.
Proof using Hacc.
  induction cs as [|c cs IH]; intros s rs s' Hwf HR.
  - injection HR as <- <-. exact Hwf.
  - rewrite spsc_run_cons in HR.
    destruct (SPSC.perform Capacity c s) as [[r s1]| | |] eqn:E;
      try discriminate.
    destruct (SPSC.run Capacity cs s1) as [[rs1 s2]| | |] eqn:E2;
      try discriminate.
    injection HR as <- <-.
    eapply IH; [|exact E2]. eapply spsc_perform_wf; eauto.
Qed.

Lemma spsc_run_returns cs : forall s,
  SPSC.wf Capacity s -> exists rs s', SPSC.run Capacity cs s = Done (rs, s').
Proof using Hacc.
  induction cs as [|c cs IH]; intros s Hwf.
  - cbn. unfold ret. eauto.
  - rewrite spsc_run_cons.
    destruct (spsc_perform_returns c s Hwf) as (r & s1 & E). rewrite E.
    destruct (IH s1) as (rs & s2 & E2); [eapply spsc_perform_wf; eauto|].
    rewrite E2. eauto.
Qed.

Lemma spsc_reachable_wf (zero : T) s :
  SPSC.reachable Capacity zero s -> SPSC.wf Capacity s.
Proof using Hacc.
  intros (cs & rs & HR). eapply spsc_run_wf; [|exact HR]. apply spsc_wf_init.
Qed.
End SPSCFacts.

(** * RingBuffer: sequences of calls *)

Section RingBufferRuns.
Context {T : Type}.
Variable Capacity : Z.
Hypothesis Hacc : accepts Capacity = true.
Variable Policy : OverflowPolicy.

Implicit Types (s : RingBuffer T) (v : T) (vs : list T).

Local Abbreviation next i := (Z.land (SizeT.add i 1) (RB.Mask Capacity)).

Lemma run_app cs1 cs2 s rs1 s1 rs2 s2 :
  RB.run Capacity Policy cs1 s = Done (rs1, s1) ->
  RB.run Capacity Policy cs2 s1 = Done (rs2, s2) ->
  RB.run Capacity Policy (cs1 ++ cs2) s = Done (rs1 ++ rs2, s2).
Proof.
  revert s rs1. induction cs1 as [|c cs1 IH]; intros s rs1 H1 H2.
  - injection H1 as <- <-. exact H2.
  - rewrite <- app_comm_cons, run_cons. rewrite run_cons in H1.
    destruct (RB.perform Capacity Policy c s) as [[r sm]| | |];
      try discriminate.
    destruct (RB.run Capacity Policy cs1 sm) as [[rs sm']| | |] eqn:E;
      try discriminate.
    injection H1 as <- <-.
    rewrite (IH sm rs E H2). reflexivity.
Qed.

Lemma perform_push_not_full v s :
  RB.wf Capacity s -> RB.full Capacity s = false ->
  RB.perform Capacity Policy (CallPush v) s =
    Done (PushReturned true,
          {| buffer_ := <[Z.to_nat (tail s) := v]> (buffer_ s);
             tail := next (tail s); head := head s |}).
Proof.
  intros Hwf Hfull. unfold RB.perform, bind, ret.
  rewrite Push_not_full by assumption. reflexivity.
Qed.

(** From a state with room for all of [vs], pushing them succeeds every
    time and appends them to the queue. *)
Lemma push_all vs : forall s,
  RB.wf Capacity s ->
  RB.size Capacity s + Z.of_nat (length vs) <= Capacity - 1 ->
  exists s',
    RB.run Capacity Policy (map CallPush vs) s
      = Done (map (fun _ => PushReturned true) vs, s')
    /\ RB.contents Capacity s' = RB.contents Capacity s ++ vs
    /\ RB.wf Capacity s'.
Proof using Hacc.
  induction vs as [|v vs IH]; intros s Hwf Hroom.
  - exists s. rewrite app_nil_r. auto.
  - cbn [length] in Hroom.
    assert (Hfull : RB.full Capacity s = false).
    { apply (not_full_size _ Hacc); [exact Hwf|]. lia. }
    pose proof (perform_push_not_full v s Hwf Hfull) as Hp.
    set (s1 := {| buffer_ := <[Z.to_nat (tail s) := v]> (buffer_ s);
                  tail := next (tail s); head := head s |}) in *.
    assert (Hwf1 : RB.wf Capacity s1) by (eapply perform_wf; eauto).
    assert (Hc1 : RB.contents Capacity s1 = RB.contents Capacity s ++ [v])
      by (apply contents_publish; assumption).
    destruct (IH s1 Hwf1) as (s' & Hrun & Hc & Hwf').
    { pose proof (contents_length _ Hacc s1 Hwf1) as L1.
      pose proof (contents_length _ Hacc s Hwf) as L0.
      rewrite Hc1, length_app in L1. cbn [length] in L1. lia. }
    exists s'. split; [|split; [|exact Hwf']].
    + cbn [map]. rewrite run_cons, Hp, Hrun. reflexivity.
    + rewrite Hc, Hc1, <- app_assoc. reflexivity.
Qed.

(** Popping as many times as the queue's front [vs] is long returns [vs]
    in order. *)
Lemma pop_all vs : forall s rest,
  RB.wf Capacity s ->
  RB.contents Capacity s = vs ++ rest ->
  exists s',
    RB.run Capacity Policy (map (fun _ => CallPop) vs) s
      = Done (map (fun v => PopReturned (Some v)) vs, s')
    /\ RB.contents Capacity s' = rest
    /\ RB.wf Capacity s'.
Proof using Hacc.
  induction vs as [|v vs IH]; intros s rest Hwf Hc.
  - exists s. auto.
  - assert (Hne : head s <> tail s).
    { intros E. apply (empty_size _ Hacc s Hwf) in E.
      pose proof (contents_length _ Hacc s Hwf) as L.
      rewrite Hc in L. cbn [length app] in L. lia. }
    destruct (wf_slot_head Capacity s Hwf) as [x Hx].
    pose proof (contents_advance _ Hacc s x Hwf Hne Hx) as Hadv.
    pose proof (Pop_nonempty Capacity s x Hne Hx) as HP.
    set (s1 := {| buffer_ := buffer_ s; tail := tail s;
                  head := next (head s) |}) in *.
    rewrite Hc in Hadv. cbn [app] in Hadv. injection Hadv as -> Hrest.
    assert (Hwf1 : RB.wf Capacity s1) by (eapply Pop_wf; eauto).
    destruct (IH s1 rest Hwf1 (eq_sym Hrest)) as (s' & Hrun & Hc' & Hwf').
    exists s'. split; [|split; assumption].
    cbn [map]. rewrite run_cons. unfold RB.perform, bind, ret.
    rewrite HP, Hrun. reflexivity.
Qed.

(** Whatever the interleaving, as long as no [Push] meets a full buffer:
    every call returns, every [Push] returns [true], and the values
    pushed are the values popped followed by those still queued. *)
Lemma run_fifo cs : forall s,
  RB.wf Capacity s -> RB.overflow_free Capacity Policy cs s = true ->
  exists rs s',
    RB.run Capacity Policy cs s = Done (rs, s')
    /\ RB.contents Capacity s ++ pushed cs
       = popped rs ++ RB.contents Capacity s'
    /\ Forall (fun r => r <> PushReturned false) rs.
Proof using Hacc.
  induction cs as [|c cs IH]; intros s Hwf Hof.
  - exists [], s. cbn. rewrite app_nil_r. auto.
  - cbn [RB.overflow_free] in Hof. apply andb_true_iff in Hof as [Hroom Hof].
    destruct c as [v|].
    + apply negb_true_iff in Hroom.
      pose proof (perform_push_not_full v s Hwf Hroom) as Hp.
      rewrite Hp in Hof.
      set (s1 := {| buffer_ := <[Z.to_nat (tail s) := v]> (buffer_ s);
                    tail := next (tail s); head := head s |}) in *.
      assert (Hwf1 : RB.wf Capacity s1) by (eapply perform_wf; eauto).
      destruct (IH s1 Hwf1 Hof) as (rs & s' & Hrun & Hq & Hall).
      exists (PushReturned true :: rs), s'. split; [|split].
      * rewrite run_cons, Hp, Hrun. reflexivity.
      * change (pushed (CallPush v :: cs)) with (v :: pushed cs).
        change (popped (PushReturned true :: rs)) with (popped rs).
        rewrite <- Hq.
        unfold s1. rewrite contents_publish by assumption.
        rewrite <- app_assoc. reflexivity.
      * constructor; [discriminate|exact Hall].
    + destruct (Z.eq_dec (head s) (tail s)) as [E|Hne].
      * pose proof (Pop_empty Capacity s E) as HP.
        unfold RB.perform, bind, ret in Hof. rewrite HP in Hof.
        destruct (IH s Hwf Hof) as (rs & s' & Hrun & Hq & Hall).
        exists (PopReturned None :: rs), s'. split; [|split].
        -- rewrite run_cons. unfold RB.perform, bind, ret.
           rewrite HP, Hrun. reflexivity.
        -- exact Hq.
        -- constructor; [discriminate|exact Hall].
      * destruct (wf_slot_head Capacity s Hwf) as [x Hx].
        pose proof (Pop_nonempty Capacity s x Hne Hx) as HP.
        unfold RB.perform, bind, ret in Hof. rewrite HP in Hof.
        set (s1 := {| buffer_ := buffer_ s; tail := tail s;
                      head := next (head s) |}) in *.
        assert (Hwf1 : RB.wf Capacity s1) by (eapply Pop_wf; eauto).
        destruct (IH s1 Hwf1 Hof) as (rs & s' & Hrun & Hq & Hall).
        exists (PopReturned (Some x) :: rs), s'. split; [|split].
        -- rewrite run_cons. unfold RB.perform, bind, ret.
           rewrite HP, Hrun. reflexivity.
        -- change (pushed (CallPop :: cs)) with (pushed cs).
           change (popped (PopReturned (Some x) :: rs)) with (x :: popped rs).
           rewrite (contents_advance _ Hacc s x Hwf Hne Hx).
           fold s1. cbn [app]. rewrite Hq. reflexivity.
        -- constructor; [discriminate|exact Hall].
Qed.
End RingBufferRuns.

(** * SPSCRingBuffer: sequences of calls *)

Section SPSCRuns.
Context {T : Type}.
Variable Capacity : Z.
Hypothesis Hacc : accepts Capacity = true.

Implicit Types (s : SPSCRingBuffer T) (v : T) (vs : list T).

Local Abbreviation next i := (Z.land (SizeT.add i 1) (SPSC.Mask Capacity)).
Local Abbreviation stored s v :=
  {| spsc_buffer_ := <[Z.to_nat (spsc_tail s) := v]> (spsc_buffer_ s);
     spsc_tail := next (spsc_tail s);
     spsc_head := spsc_head s;
     drop_count := drop_count s |}.
Local Abbreviation taken s :=
  {| spsc_buffer_ := spsc_buffer_ s;
     spsc_tail := spsc_tail s;
     spsc_head := next (spsc_head s);
     drop_count := drop_count s |}.

Lemma spsc_run_app cs1 cs2 s rs1 s1 rs2 s2 :
  SPSC.run Capacity cs1 s = Done (rs1, s1) ->
  SPSC.run Capacity cs2 s1 = Done (rs2, s2) ->
  SPSC.run Capacity (cs1 ++ cs2) s = Done (rs1 ++ rs2, s2).
Proof.
  revert s rs1. induction cs1 as [|c cs1 IH]; intros s rs1 H1 H2.
  - injection H1 as <- <-. exact H2.
  - rewrite <- app_comm_cons, spsc_run_cons. rewrite spsc_run_cons in H1.
    destruct (SPSC.perform Capacity c s) as [[r sm]| | |]; try discriminate.
    destruct (SPSC.run Capacity cs1 sm) as [[rs sm']| | |] eqn:E;
      try discriminate.
    injection H1 as <- <-.
    rewrite (IH sm rs E H2). reflexivity.
Qed.

Lemma spsc_contents_stored s v :
  SPSC.wf Capacity s -> SPSC.full Capacity s = false ->
  SPSC.contents Capacity (stored s v) = SPSC.contents Capacity s ++ [v].
Proof using Hacc.
  intros [Hwf _] Hfull.
  exact (contents_publish Capacity Hacc (SPSC.core s) v Hwf Hfull).
Qed.

Lemma spsc_contents_taken s x :
  SPSC.wf Capacity s -> spsc_head s <> spsc_tail s ->
  slot (spsc_buffer_ s) (spsc_head s) = Some x ->
  SPSC.contents Capacity s = x :: SPSC.contents Capacity (taken s).
Proof using Hacc.
  intros [Hwf _] Hne Hx.
  exact (contents_advance Capacity Hacc (SPSC.core s) x Hwf Hne Hx).
Qed.

Lemma spsc_contents_length s :
  SPSC.wf Capacity s ->
  Z.of_nat (length (SPSC.contents Capacity s)) = SPSC.occupied_count Capacity s.
Proof using Hacc.
  intros [Hwf _]. exact (contents_length Capacity Hacc (SPSC.core s) Hwf).
Qed.

Lemma spsc_contents_init (zero : T) :
  SPSC.contents Capacity (SPSC.init Capacity zero) = [].
Proof using Hacc. exact (contents_init Capacity Hacc zero). Qed.

Lemma spsc_not_full_count s :
  SPSC.wf Capacity s ->
  (SPSC.full Capacity s = false
   <-> SPSC.occupied_count Capacity s <> Capacity - 1).
Proof using Hacc.
  intros [Hwf _]. exact (not_full_size Capacity Hacc (SPSC.core s) Hwf).
Qed.

Lemma spsc_full_count s :
  SPSC.wf Capacity s ->
  (SPSC.full Capacity s = true
   <-> SPSC.occupied_count Capacity s = Capacity - 1).
Proof using Hacc.
  intros [Hwf _]. exact (full_size Capacity Hacc (SPSC.core s) Hwf).
Qed.

Lemma spsc_empty_count s :
  SPSC.wf Capacity s ->
  (spsc_head s = spsc_tail s <-> SPSC.occupied_count Capacity s = 0).
Proof using Hacc.
  intros [Hwf _]. exact (empty_size Capacity Hacc (SPSC.core s) Hwf).
Qed.

Lemma spsc_perform_push_not_full v s :
  SPSC.wf Capacity s -> SPSC.full Capacity s = false ->
  SPSC.perform Capacity (SPSC.CallPush v) s
    = Done (SPSC.PushReturned true, stored s v).
Proof.
  intros Hwf Hfull. unfold SPSC.perform, bind, ret.
  rewrite spsc_Push_not_full by assumption. reflexivity.
Qed.

Lemma spsc_push_all vs : forall s,
  SPSC.wf Capacity s ->
  SPSC.occupied_count Capacity s + Z.of_nat (length vs) <= Capacity - 1 ->
  exists s',
    SPSC.run Capacity (map SPSC.CallPush vs) s
      = Done (map (fun _ => SPSC.PushReturned true) vs, s')
    /\ SPSC.contents Capacity s' = SPSC.contents Capacity s ++ vs
    /\ drop_count s' = drop_count s
    /\ SPSC.wf Capacity s'.
Proof using Hacc.
  induction vs as [|v vs IH]; intros s Hwf Hroom.
  - exists s. rewrite app_nil_r. auto.
  - cbn [length] in Hroom.
    assert (Hfull : SPSC.full Capacity s = false).
    { apply spsc_not_full_count; [exact Hwf|]. lia. }
    pose proof (spsc_perform_push_not_full v s Hwf Hfull) as Hp.
    assert (Hwf1 : SPSC.wf Capacity (stored s v))
      by (eapply spsc_perform_wf; eauto).
    pose proof (spsc_contents_stored s v Hwf Hfull) as Hc1.
    destruct (IH (stored s v) Hwf1) as (s' & Hrun & Hc & Hd & Hwf').
    { pose proof (spsc_contents_length _ Hwf1) as L1.
      pose proof (spsc_contents_length s Hwf) as L0.
      rewrite Hc1, length_app in L1. cbn [length] in L1. lia. }
    exists s'. split; [|split; [|split; [exact Hd|exact Hwf']]].
    + cbn [map]. rewrite spsc_run_cons, Hp, Hrun. reflexivity.
    + rewrite Hc, Hc1, <- app_assoc. reflexivity.
Qed.

Lemma spsc_pop_all vs : forall s rest,
  SPSC.wf Capacity s ->
  SPSC.contents Capacity s = vs ++ rest ->
  exists s',
    SPSC.run Capacity (map (fun _ => SPSC.CallPop) vs) s
      = Done (map (fun v => SPSC.PopReturned (Some v)) vs, s')
    /\ SPSC.contents Capacity s' = rest
    /\ SPSC.wf Capacity s'.
Proof using Hacc.
  induction vs as [|v vs IH]; intros s rest Hwf Hc.
  - exists s. auto.
  - assert (Hne : spsc_head s <> spsc_tail s).
    { intros E. apply (spsc_empty_count s Hwf) in E.
      pose proof (spsc_contents_length s Hwf) as L.
      rewrite Hc in L. cbn [length app] in L. lia. }
    destruct (wf_slot_head Capacity _ (proj1 Hwf)) as [x Hx]. cbn in Hx.
    pose proof (spsc_contents_taken s x Hwf Hne Hx) as Hadv.
    pose proof (spsc_Pop_nonempty Capacity s x Hne Hx) as HP.
    rewrite Hc in Hadv. cbn [app] in Hadv. injection Hadv as -> Hrest.
    assert (Hwf1 : SPSC.wf Capacity (taken s)) by (eapply spsc_Pop_wf; eauto).
    destruct (IH (taken s) rest Hwf1 (eq_sym Hrest)) as (s' & Hrun & Hc' & Hwf').
    exists s'. split; [|split; assumption].
    cbn [map]. rewrite spsc_run_cons. unfold SPSC.perform, bind, ret.
    rewrite HP, Hrun. reflexivity.
Qed.

Lemma spsc_run_fifo cs : forall s,
  SPSC.wf Capacity s -> SPSC.overflow_free Capacity cs s = true ->
  exists rs s',
    SPSC.run Capacity cs s = Done (rs, s')
    /\ SPSC.contents Capacity s ++ SPSC.pushed cs
       = SPSC.popped rs ++ SPSC.contents Capacity s'
    /\ Forall (fun r => r <> SPSC.PushReturned false) rs.
Proof using Hacc.
  induction cs as [|c cs IH]; intros s Hwf Hof.
  - exists [], s. cbn. rewrite app_nil_r. auto.
  - cbn [SPSC.overflow_free] in Hof.
    apply andb_true_iff in Hof as [Hroom Hof].
    destruct c as [v| | |].
    + apply negb_true_iff in Hroom.
      pose proof (spsc_perform_push_not_full v s Hwf Hroom) as Hp.
      rewrite Hp in Hof.
      assert (Hwf1 : SPSC.wf Capacity (stored s v))
        by (eapply spsc_perform_wf; eauto).
      destruct (IH _ Hwf1 Hof) as (rs & s' & Hrun & Hq & Hall).
      exists (SPSC.PushReturned true :: rs), s'. split; [|split].
      * rewrite spsc_run_cons, Hp, Hrun. reflexivity.
      * change (SPSC.pushed (SPSC.CallPush v :: cs)) with (v :: SPSC.pushed cs).
        change (SPSC.popped (SPSC.PushReturned true :: rs)) with (SPSC.popped rs).
        rewrite <- Hq, spsc_contents_stored by assumption.
        rewrite <- app_assoc. reflexivity.
      * constructor; [discriminate|exact Hall].
    + destruct (Z.eq_dec (spsc_head s) (spsc_tail s)) as [E|Hne].
      * pose proof (spsc_Pop_empty Capacity s E) as HP.
        unfold SPSC.perform, bind, ret in Hof. rewrite HP in Hof.
        destruct (IH s Hwf Hof) as (rs & s' & Hrun & Hq & Hall).
        exists (SPSC.PopReturned None :: rs), s'. split; [|split].
        -- rewrite spsc_run_cons. unfold SPSC.perform, bind, ret.
           rewrite HP, Hrun. reflexivity.
        -- exact Hq.
        -- constructor; [discriminate|exact Hall].
      * destruct (wf_slot_head Capacity _ (proj1 Hwf)) as [x Hx]. cbn in Hx.
        pose proof (spsc_Pop_nonempty Capacity s x Hne Hx) as HP.
        unfold SPSC.perform, bind, ret in Hof. rewrite HP in Hof.
        assert (Hwf1 : SPSC.wf Capacity (taken s))
          by (eapply spsc_Pop_wf; eauto).
        destruct (IH _ Hwf1 Hof) as (rs & s' & Hrun & Hq & Hall).
        exists (SPSC.PopReturned (Some x) :: rs), s'. split; [|split].
        -- rewrite spsc_run_cons. unfold SPSC.perform, bind, ret.
           rewrite HP, Hrun. reflexivity.
        -- change (SPSC.pushed (SPSC.CallPop :: cs)) with (SPSC.pushed cs).
           change (SPSC.popped (SPSC.PopReturned (Some x) :: rs))
             with (x :: SPSC.popped rs).
           rewrite (spsc_contents_taken s x Hwf Hne Hx).
           cbn [app]. rewrite Hq. reflexivity.
        -- constructor; [discriminate|exact Hall].
    + cbn in Hof.
      destruct (IH s Hwf Hof) as (rs & s' & Hrun & Hq & Hall).
      exists (SPSC.EmptyReturned (spsc_head s =? spsc_tail s) :: rs), s'.
      split; [|split].
      * rewrite spsc_run_cons. cbn. rewrite Hrun. reflexivity.
      * exact Hq.
      * constructor; [discriminate|exact Hall].
    + cbn in Hof.
      destruct (IH s Hwf Hof) as (rs & s' & Hrun & Hq & Hall).
      exists (SPSC.GetDropCountReturned (drop_count s) :: rs), s'.
      split; [|split].
      * rewrite spsc_run_cons. cbn. rewrite Hrun. reflexivity.
      * exact Hq.
      * constructor; [discriminate|exact Hall].
Qed.

(** *** The drop counter *)

Lemma failed_pushes_cons (r : SPSC.reply (T := T)) rs :
  SPSC.failed_pushes (r :: rs)
  = (if SPSC.is_failed_push r then 1 else 0) + SPSC.failed_pushes rs.
Proof.
  unfold SPSC.failed_pushes. cbn [List.filter].
  destruct (SPSC.is_failed_push r); cbn [length]; lia.
Qed.

Lemma failed_pushes_nonneg (rs : list (SPSC.reply (T := T))) :
  0 <= SPSC.failed_pushes rs.
Proof. unfold SPSC.failed_pushes. lia. Qed.

(** A call either is a [Push] that returns [false] and adds one to the
    counter (wrapping), or leaves the counter alone. *)
Lemma spsc_perform_drop_count c s r s' :
  SPSC.wf Capacity s -> SPSC.perform Capacity c s = Done (r, s') ->
  drop_count s'
  = if SPSC.is_failed_push r then SizeT.add (drop_count s) 1 else drop_count s.
Proof.
  intros Hwf HP. destruct c as [v| | |]; unfold SPSC.perform, bind, ret in HP.
  - destruct (SPSC.full Capacity s) eqn:Hfull.
    + rewrite spsc_Push_full in HP by assumption.
      injection HP as <- <-. reflexivity.
    + rewrite spsc_Push_not_full in HP by assumption.
      injection HP as <- <-. reflexivity.
  - destruct (Z.eq_dec (spsc_head s) (spsc_tail s)) as [E|Hne].
    + rewrite spsc_Pop_empty in HP by assumption.
      injection HP as <- <-. reflexivity.
    + destruct (wf_slot_head Capacity _ (proj1 Hwf)) as [x Hx]. cbn in Hx.
      rewrite (spsc_Pop_nonempty Capacity s x) in HP by assumption.
      injection HP as <- <-. reflexivity.
  - cbn in HP. injection HP as <- <-. reflexivity.
  - cbn in HP. injection HP as <- <-. reflexivity.
Qed.

Lemma spsc_run_drop_count cs : forall s rs s',
  SPSC.wf Capacity s -> SPSC.run Capacity cs s = Done (rs, s') ->
  drop_count s' = SizeT.wrap (drop_count s + SPSC.failed_pushes rs).
Proof using Hacc.
  induction cs as [|c cs IH]; intros s rs s' Hwf HR.
  - injection HR as <- <-. cbn. rewrite Z.add_0_r.
    symmetry. apply wrap_small, Hwf.
  - rewrite spsc_run_cons in HR.
    destruct (SPSC.perform Capacity c s) as [[r s1]| | |] eqn:E;
      try discriminate.
    destruct (SPSC.run Capacity cs s1) as [[rs1 s2]| | |] eqn:E2;
      try discriminate.
    injection HR as <- <-.
    assert (Hwf1 : SPSC.wf Capacity s1) by (eapply spsc_perform_wf; eauto).
    rewrite (IH s1 rs1 s2 Hwf1 E2).
    rewrite (spsc_perform_drop_count c s r s1 Hwf E).
    rewrite failed_pushes_cons.
    destruct (SPSC.is_failed_push r).
    + unfold SizeT.add, SizeT.wrap. rewrite Zplus_mod_idemp_l.
      f_equal. lia.
    + f_equal.
Qed.
End SPSCRuns.

(** * RingBuffer: the observers and the overwriting [Push] *)

Section RingBufferObservers.
Context {T : Type}.
Variable Capacity : Z.
Hypothesis Hacc : accepts Capacity = true.

Implicit Types (s : RingBuffer T) (v : T).

Local Abbreviation next i := (Z.land (SizeT.add i 1) (RB.Mask Capacity)).

Lemma Size_value s : RB.Size Capacity s = Done (RB.size Capacity s, s).
Proof. reflexivity. Qed.

Lemma Empty_value s : RB.Empty s = Done (head s =? tail s, s).
Proof. reflexivity. Qed.

Lemma Front_empty s : head s = tail s -> RB.Front s = AssertionFailed.
Proof. intros E. unfold_rb. rewrite E, Z.eqb_refl. reflexivity. Qed.

Lemma Front_nonempty s x :
  head s <> tail s -> slot (buffer_ s) (head s) = Some x ->
  RB.Front s = Done (x, s).
Proof.
  intros Hne Hx. unfold_rb.
  destruct (Z.eqb_spec (head s) (tail s)) as [|_]; [contradiction|].
  rewrite Hx. reflexivity.
Qed.

Lemma next_index_moves (i : Z) :
  2 <= Capacity -> 0 <= i < Capacity -> next i <> i.
Proof using Hacc.
  intros H2 Hi. rewrite next_index by exact Hacc.
  destruct (Z.eq_dec i (Capacity - 1)) as [->|].
  - replace (Capacity - 1 + 1) with Capacity by lia.
    rewrite Z.mod_same by lia. lia.
  - rewrite Z.mod_small by lia. lia.
Qed.

(** When the buffer is full, advancing [head] and then storing at [tail]
    drops the oldest element and appends the new one. *)
Lemma contents_overwrite s v :
  RB.wf Capacity s -> RB.full Capacity s = true ->
  RB.contents Capacity
    {| buffer_ := <[Z.to_nat (tail s) := v]> (buffer_ s);
       tail := next (tail s); head := next (head s) |}
  = tl (RB.contents Capacity s ++ [v]).
Proof using Hacc.
  intros Hwf Hfull. pose proof Hwf as (Hl & Hh & Ht).
  pose proof (Capacity_bounds _ Hacc) as Hb.
  destruct (Z.eq_dec Capacity 1) as [E1|Hn1].
  - assert (Hz : forall s0 : RingBuffer T, RB.contents Capacity s0 = []).
    { intros s0. unfold RB.contents.
      pose proof (size_range _ Hacc s0).
      replace (RB.size Capacity s0) with 0 by lia. reflexivity. }
    rewrite !Hz. reflexivity.
  - assert (H2 : 2 <= Capacity) by lia.
    assert (Hnt : next (tail s) = head s)
      by (apply Z.eqb_eq; exact Hfull).
    assert (Hne : head s <> tail s).
    { intros E. rewrite E in Hnt. revert Hnt. apply next_index_moves; lia. }
    destruct (wf_slot_head Capacity s Hwf) as [x Hx].
    set (sm := {| buffer_ := buffer_ s; tail := tail s;
                  head := next (head s) |}).
    assert (Hwfm : RB.wf Capacity sm).
    { unfold RB.wf, sm; cbn. pose proof (next_index_range _ Hacc (head s)).
      auto. }
    assert (Hfm : RB.full Capacity sm = false).
    { unfold RB.full, sm; cbn. apply Z.eqb_neq. rewrite Hnt.
      intros E. symmetry in E. revert E. apply next_index_moves; lia. }
    rewrite (contents_advance _ Hacc s x Hwf Hne Hx). fold sm.
    cbn [app tl].
    exact (contents_publish _ Hacc sm v Hwfm Hfm).
Qed.

Lemma size_overwrite s v :
  RB.wf Capacity s -> RB.full Capacity s = true ->
  RB.size Capacity
    {| buffer_ := <[Z.to_nat (tail s) := v]> (buffer_ s);
       tail := next (tail s); head := next (head s) |}
  = Capacity - 1.
Proof using Hacc.
  intros Hwf Hfull.
  pose proof (Push_full_Overwrite Capacity v s Hwf Hfull) as HP.
  pose proof (Push_wf Capacity Hacc Overwrite v s _ _ Hwf HP) as Hwf'.
  rewrite <- (contents_length _ Hacc _ Hwf').
  rewrite contents_overwrite by assumption.
  apply (full_size _ Hacc s Hwf) in Hfull. rewrite <- Hfull.
  rewrite <- (contents_length _ Hacc s Hwf).
  destruct (RB.contents Capacity s); cbn [app tl length];
    [reflexivity | rewrite length_app; cbn [length]; lia].
Qed.
End RingBufferObservers.

(** * The buffers against the first-in first-out queue *)

Section AgainstQueue.
Context {T : Type}.
Variable Capacity : Z.
Hypothesis Hacc : accepts Capacity = true.

Implicit Types (s : RingBuffer T) (t : SPSCRingBuffer T) (v : T).

Lemma contents_nil_iff s :
  RB.wf Capacity s -> (RB.contents Capacity s = [] <-> head s = tail s).
Proof using Hacc.
  intros Hwf. rewrite (empty_size _ Hacc s Hwf).
  rewrite <- (contents_length _ Hacc s Hwf).
  destruct (RB.contents Capacity s); cbn [length]; split;
    (reflexivity || discriminate || lia).
Qed.

(** Without overflow the [RingBuffer] gives, call by call, the replies of
    the queue, and holds what the queue holds. *)
Lemma run_matches_queue Policy cs : forall s,
  RB.wf Capacity s -> RB.overflow_free Capacity Policy cs s = true ->
  exists s',
    RB.run Capacity Policy cs s
    = Done (fifo_replies (RB.contents Capacity s) cs, s')
    /\ RB.contents Capacity s' = fifo_queue (RB.contents Capacity s) cs
    /\ RB.wf Capacity s'.
Proof using Hacc.
  induction cs as [|c cs IH]; intros s Hwf Hof.
  - exists s. auto.
  - cbn [RB.overflow_free] in Hof. apply andb_true_iff in Hof as [Hroom Hof].
    destruct c as [v|].
    + apply negb_true_iff in Hroom.
      pose proof (perform_push_not_full Capacity Policy v s Hwf Hroom) as Hp.
      rewrite Hp in Hof.
      pose proof (perform_wf Capacity Hacc Policy _ s _ _ Hwf Hp) as Hwf1.
      destruct (IH _ Hwf1 Hof) as (s' & Hrun & Hq & Hwf').
      rewrite (contents_publish _ Hacc) in Hrun, Hq by assumption.
      exists s'. split; [|split; [exact Hq|exact Hwf']].
      rewrite run_cons, Hp, Hrun. reflexivity.
    + destruct (Z.eq_dec (head s) (tail s)) as [E|Hne].
      * pose proof (Pop_empty Capacity s E) as HP.
        unfold RB.perform, bind, ret in Hof. rewrite HP in Hof.
        destruct (IH s Hwf Hof) as (s' & Hrun & Hq & Hwf').
        apply (contents_nil_iff s Hwf) in E. rewrite E in *.
        exists s'. split; [|split; [exact Hq|exact Hwf']].
        rewrite run_cons. unfold RB.perform, bind, ret.
        rewrite HP, Hrun. reflexivity.
      * destruct (wf_slot_head Capacity s Hwf) as [x Hx].
        pose proof (Pop_nonempty Capacity s x Hne Hx) as HP.
        unfold RB.perform, bind, ret in Hof. rewrite HP in Hof.
        pose proof (Pop_wf Capacity Hacc s _ _ Hwf HP) as Hwf1.
        destruct (IH _ Hwf1 Hof) as (s' & Hrun & Hq & Hwf').
        rewrite (contents_advance _ Hacc s x Hwf Hne Hx).
        exists s'. split; [|split; [exact Hq|exact Hwf']].
        rewrite run_cons. unfold RB.perform, bind, ret.
        rewrite HP, Hrun. reflexivity.
Qed.

Lemma spsc_contents_nil_iff t :
  SPSC.wf Capacity t ->
  (SPSC.contents Capacity t = [] <-> spsc_head t = spsc_tail t).
Proof using Hacc.
  intros [Hwf _]. exact (contents_nil_iff (SPSC.core t) Hwf).
Qed.

Lemma spsc_run_matches_queue cs : forall t,
  SPSC.wf Capacity t -> SPSC.overflow_free Capacity cs t = true ->
  exists t',
    SPSC.run Capacity cs t
    = Done (spsc_fifo_replies (drop_count t) (SPSC.contents Capacity t) cs, t')
    /\ SPSC.contents Capacity t' = spsc_fifo_queue (SPSC.contents Capacity t) cs
    /\ drop_count t' = drop_count t
    /\ SPSC.wf Capacity t'.
Proof using Hacc.
  induction cs as [|c cs IH]; intros t Hwf Hof.
  - exists t. auto.
  - cbn [SPSC.overflow_free] in Hof.
    apply andb_true_iff in Hof as [Hroom Hof].
    destruct c as [v| | |].
    + apply negb_true_iff in Hroom.
      pose proof (spsc_perform_push_not_full Capacity v t Hwf Hroom) as Hp.
      rewrite Hp in Hof.
      pose proof (spsc_perform_wf Capacity Hacc _ t _ _ Hwf Hp) as Hwf1.
      destruct (IH _ Hwf1 Hof) as (t' & Hrun & Hq & Hd & Hwf').
      rewrite (spsc_contents_stored _ Hacc) in Hrun, Hq by assumption.
      exists t'. split; [|split; [exact Hq|split; [exact Hd|exact Hwf']]].
      rewrite spsc_run_cons, Hp, Hrun. reflexivity.
    + destruct (Z.eq_dec (spsc_head t) (spsc_tail t)) as [E|Hne].
      * pose proof (spsc_Pop_empty Capacity t E) as HP.
        unfold SPSC.perform, bind, ret in Hof. rewrite HP in Hof.
        destruct (IH t Hwf Hof) as (t' & Hrun & Hq & Hd & Hwf').
        apply (spsc_contents_nil_iff t Hwf) in E. rewrite E in *.
        exists t'. split; [|split; [exact Hq|split; [exact Hd|exact Hwf']]].
        rewrite spsc_run_cons. unfold SPSC.perform, bind, ret.
        rewrite HP, Hrun. reflexivity.
      * destruct (wf_slot_head Capacity _ (proj1 Hwf)) as [x Hx]. cbn in Hx.
        pose proof (spsc_Pop_nonempty Capacity t x Hne Hx) as HP.
        unfold SPSC.perform, bind, ret in Hof. rewrite HP in Hof.
        pose proof (spsc_Pop_wf Capacity Hacc t _ _ Hwf HP) as Hwf1.
        destruct (IH _ Hwf1 Hof) as (t' & Hrun & Hq & Hd & Hwf').
        rewrite (spsc_contents_taken _ Hacc t x Hwf Hne Hx).
        exists t'. split; [|split; [exact Hq|split; [exact Hd|exact Hwf']]].
        rewrite spsc_run_cons. unfold SPSC.perform, bind, ret.
        rewrite HP, Hrun. reflexivity.
    + cbn in Hof.
      destruct (IH t Hwf Hof) as (t' & Hrun & Hq & Hd & Hwf').
      exists t'. split; [|split; [exact Hq|split; [exact Hd|exact Hwf']]].
      rewrite spsc_run_cons. cbn. rewrite Hrun.
      cbn [spsc_fifo_replies]. do 3 f_equal.
      destruct (Z.eqb_spec (spsc_head t) (spsc_tail t)) as [E|Hne].
      * apply (spsc_contents_nil_iff t Hwf) in E. rewrite E. reflexivity.
      * destruct (SPSC.contents Capacity t) eqn:Ec; [|reflexivity].
        exfalso. apply Hne. apply (spsc_contents_nil_iff t Hwf). exact Ec.
    + cbn in Hof.
      destruct (IH t Hwf Hof) as (t' & Hrun & Hq & Hd & Hwf').
      exists t'. split; [|split; [exact Hq|split; [exact Hd|exact Hwf']]].
      rewrite spsc_run_cons. cbn. rewrite Hrun. reflexivity.
Qed.

(** From an empty buffer, [vs] pushed and then popped. *)
Lemma push_all_pop_all Policy (vs : list T) s :
  RB.wf Capacity s -> head s = tail s ->
  Z.of_nat (length vs) <= Capacity - 1 ->
  exists s',
    RB.run Capacity Policy (map CallPush vs ++ map (fun _ => CallPop) vs) s
    = Done (map (fun _ => PushReturned true) vs
              ++ map (fun v => PopReturned (Some v)) vs, s')
    /\ RB.contents Capacity s' = [].
Proof using Hacc.
  intros Hwf He Hlen.
  assert (Hnil : RB.contents Capacity s = [])
    by (apply contents_nil_iff; assumption).
  destruct (push_all Capacity Hacc Policy vs s Hwf) as (s1 & Hr1 & Hc1 & Hwf1).
  { rewrite <- (contents_length _ Hacc s Hwf), Hnil. cbn [length]. lia. }
  rewrite Hnil in Hc1. cbn [app] in Hc1.
  destruct (pop_all Capacity Hacc Policy vs s1 [] Hwf1) as (s2 & Hr2 & Hc2 & _).
  { rewrite Hc1, app_nil_r. reflexivity. }
  exists s2. split; [|exact Hc2].
  exact (run_app Capacity Policy _ _ _ _ _ _ _ Hr1 Hr2).
Qed.

Lemma spsc_push_all_pop_all (vs : list T) t :
  SPSC.wf Capacity t -> spsc_head t = spsc_tail t ->
  Z.of_nat (length vs) <= Capacity - 1 ->
  exists t',
    SPSC.run Capacity
      (map SPSC.CallPush vs ++ map (fun _ => SPSC.CallPop) vs) t
    = Done (map (fun _ => SPSC.PushReturned true) vs
              ++ map (fun v => SPSC.PopReturned (Some v)) vs, t')
    /\ SPSC.contents Capacity t' = [].
Proof using Hacc.
  intros Hwf He Hlen.
  assert (Hnil : SPSC.contents Capacity t = [])
    by (apply spsc_contents_nil_iff; assumption).
  destruct (spsc_push_all Capacity Hacc vs t Hwf) as (t1 & Hr1 & Hc1 & _ & Hwf1).
  { rewrite <- (spsc_contents_length _ Hacc t Hwf), Hnil. cbn [length]. lia. }
  rewrite Hnil in Hc1. cbn [app] in Hc1.
  destruct (spsc_pop_all Capacity Hacc vs t1 [] Hwf1) as (t2 & Hr2 & Hc2 & _).
  { rewrite Hc1, app_nil_r. reflexivity. }
  exists t2. split; [|exact Hc2].
  exact (spsc_run_app Capacity _ _ _ _ _ _ _ Hr1 Hr2).
Qed.
End AgainstQueue.

(** * The properties of the specification *)

(** C1 (FIFO order).  For a capacity that passes the static assertion, on
    the [RingBuffer] under either policy and on the [SPSCRingBuffer]:
    - the initial buffer is a reachable, empty state;
    - from every reachable empty state, wherever its indices stand, pushing
      the values [vs], at most [Capacity - 1] of them, and then popping as
      many times returns [true] for every [Push] and returns exactly [vs],
      in order, from the [Pop]s, each returning [true]; the buffer is empty
      again;
    - from every reachable state, in any sequence of calls in which no
      [Push] meets a full buffer, every call returns, and the replies are,
      call by call, those of a first-in first-out queue that starts with the
      elements queued in the buffer: every [Push] returns [true], every
      [Pop] made while an element is queued returns [true] with the oldest
      one, and a [Pop] returns [false] only when nothing is queued.  Hence
      the values queued before and those pushed are the values popped, in
      the same order, followed by the values still queued, and once as many
      values were popped as were there the popped sequence is the pushed
      sequence. *)
Theorem fifo_order (T : Type) (Capacity : Z) (zero : T) (Policy : OverflowPolicy)
    (s0 : RingBuffer T) (t0 : SPSCRingBuffer T)
    (vs : list T) (cs : list (call T)) (spsc_cs : list (SPSC.call (T := T))) :
  accepts Capacity = true ->
  (RB.reachable Capacity Policy zero (RB.init Capacity zero)
   /\ RB.Empty (RB.init Capacity zero) = Done (true, RB.init Capacity zero)
   /\ RB.contents Capacity (RB.init Capacity zero) = []
   /\ SPSC.reachable Capacity zero (SPSC.init Capacity zero)
   /\ SPSC.Empty (SPSC.init Capacity zero) = Done (true, SPSC.init Capacity zero)
   /\ SPSC.contents Capacity (SPSC.init Capacity zero) = [])
  /\ (RB.reachable Capacity Policy zero s0 ->
      RB.Empty s0 = Done (true, s0) ->
      Z.of_nat (length vs) <= Capacity - 1 ->
      exists s',
        RB.run Capacity Policy
          (map CallPush vs ++ map (fun _ => CallPop) vs) s0
        = Done (map (fun _ => PushReturned true) vs
                  ++ map (fun v => PopReturned (Some v)) vs, s')
        /\ RB.Empty s' = Done (true, s'))
  /\ (SPSC.reachable Capacity zero t0 ->
      SPSC.Empty t0 = Done (true, t0) ->
      Z.of_nat (length vs) <= Capacity - 1 ->
      exists t',
        SPSC.run Capacity
          (map SPSC.CallPush vs ++ map (fun _ => SPSC.CallPop) vs) t0
        = Done (map (fun _ => SPSC.PushReturned true) vs
                  ++ map (fun v => SPSC.PopReturned (Some v)) vs, t')
        /\ SPSC.Empty t' = Done (true, t'))
  /\ (RB.reachable Capacity Policy zero s0 ->
      RB.overflow_free Capacity Policy cs s0 = true ->
      exists rs s',
        RB.run Capacity Policy cs s0 = Done (rs, s')
        /\ rs = fifo_replies (RB.contents Capacity s0) cs
        /\ RB.contents Capacity s' = fifo_queue (RB.contents Capacity s0) cs
        /\ Forall (fun r => r <> PushReturned false) rs
        /\ RB.contents Capacity s0 ++ pushed cs
           = popped rs ++ RB.contents Capacity s'
        /\ (length (popped rs)
            = length (RB.contents Capacity s0 ++ pushed cs) ->
            popped rs = RB.contents Capacity s0 ++ pushed cs))
  /\ (SPSC.reachable Capacity zero t0 ->
      SPSC.overflow_free Capacity spsc_cs t0 = true ->
      exists rs t',
        SPSC.run Capacity spsc_cs t0 = Done (rs, t')
        /\ rs = spsc_fifo_replies (drop_count t0) (SPSC.contents Capacity t0)
                  spsc_cs
        /\ SPSC.contents Capacity t'
           = spsc_fifo_queue (SPSC.contents Capacity t0) spsc_cs
        /\ Forall (fun r => r <> SPSC.PushReturned false) rs
        /\ SPSC.contents Capacity t0 ++ SPSC.pushed spsc_cs
           = SPSC.popped rs ++ SPSC.contents Capacity t'
        /\ (length (SPSC.popped rs)
            = length (SPSC.contents Capacity t0 ++ SPSC.pushed spsc_cs) ->
            SPSC.popped rs = SPSC.contents Capacity t0 ++ SPSC.pushed spsc_cs)).
Proof.
  intros Hacc.
  assert (Hsame : forall (a b c : list T),
             a = b ++ c -> length b = length a -> b = a).
  { intros a b c -> Hlen. rewrite length_app in Hlen.
    destruct c; [rewrite app_nil_r; reflexivity | cbn in Hlen; lia]. }
  split; [|split; [|split; [|split]]].
  - split; [exists [], []; reflexivity|]. split; [reflexivity|].
    split; [apply contents_init, Hacc|].
    split; [exists [], []; reflexivity|]. split; [reflexivity|].
    apply spsc_contents_init, Hacc.
  - intros Hreach HE Hlen.
    pose proof (reachable_wf Capacity Hacc Policy zero s0 Hreach) as Hwf.
    rewrite Empty_value in HE.
    assert (He : head s0 = tail s0) by (apply Z.eqb_eq; congruence).
    destruct (push_all_pop_all Capacity Hacc Policy vs s0 Hwf He Hlen)
      as (s' & Hrun & Hc).
    exists s'. split; [exact Hrun|].
    pose proof (run_wf Capacity Hacc Policy _ _ _ _ Hwf Hrun) as Hwf'.
    apply (contents_nil_iff Capacity Hacc s' Hwf') in Hc.
    rewrite Empty_value, Hc, Z.eqb_refl. reflexivity.
  - intros Hreach HE Hlen.
    pose proof (spsc_reachable_wf Capacity Hacc zero t0 Hreach) as Hwf.
    assert (HE0 : SPSC.Empty t0 = Done (spsc_head t0 =? spsc_tail t0, t0))
      by reflexivity.
    rewrite HE0 in HE.
    assert (He : spsc_head t0 = spsc_tail t0) by (apply Z.eqb_eq; congruence).
    destruct (spsc_push_all_pop_all Capacity Hacc vs t0 Hwf He Hlen)
      as (t' & Hrun & Hc).
    exists t'. split; [exact Hrun|].
    pose proof (spsc_run_wf Capacity Hacc _ _ _ _ Hwf Hrun) as Hwf'.
    apply (spsc_contents_nil_iff Capacity Hacc t' Hwf') in Hc.
    unfold_spsc. rewrite Hc, Z.eqb_refl. reflexivity.
  - intros Hreach Hof.
    pose proof (reachable_wf Capacity Hacc Policy zero s0 Hreach) as Hwf.
    destruct (run_matches_queue Capacity Hacc Policy cs s0 Hwf Hof)
      as (s' & Hrun & Hq & _).
    destruct (run_fifo Capacity Hacc Policy cs s0 Hwf Hof)
      as (rs & s2 & Hrun2 & Heq & Hall).
    rewrite Hrun in Hrun2. injection Hrun2 as <- <-.
    eexists _, s'. split; [exact Hrun|]. split; [reflexivity|].
    split; [exact Hq|]. split; [exact Hall|]. split; [exact Heq|].
    intros Hlen. eapply Hsame; eauto.
  - intros Hreach Hof.
    pose proof (spsc_reachable_wf Capacity Hacc zero t0 Hreach) as Hwf.
    destruct (spsc_run_matches_queue Capacity Hacc spsc_cs t0 Hwf Hof)
      as (t' & Hrun & Hq & _).
    destruct (spsc_run_fifo Capacity Hacc spsc_cs t0 Hwf Hof)
      as (rs & t2 & Hrun2 & Heq & Hall).
    rewrite Hrun in Hrun2. injection Hrun2 as <- <-.
    eexists _, t'. split; [exact Hrun|]. split; [reflexivity|].
    split; [exact Hq|]. split; [exact Hall|]. split; [exact Heq|].
    intros Hlen. eapply Hsame; eauto.
Qed.

Lemma fifo_order_witness :
  let s_empty := {| buffer_ := [1; 2; 3; 0]; tail := 3; head := 3 |} in
  let s_one := {| buffer_ := [1; 2; 0; 0]; tail := 2; head := 1 |} in
  let t_empty := {| spsc_buffer_ := [1; 2; 3; 0]; spsc_tail := 3;
                    spsc_head := 3; drop_count := 0 |} in
  let t_one := {| spsc_buffer_ := [1; 2; 0; 0]; spsc_tail := 2;
                  spsc_head := 1; drop_count := 0 |} in
  (exists s',
      RB.run 4 Overwrite
        (map CallPush [7; 8; 9] ++ map (fun _ => CallPop) [7; 8; 9]) s_empty
      = Done (map (fun _ => PushReturned true) [7; 8; 9]
                ++ map (fun v => PopReturned (Some v)) [7; 8; 9], s')
      /\ RB.Empty s' = Done (true, s'))
  /\ (exists t',
      SPSC.run 4
        (map SPSC.CallPush [7; 8; 9] ++ map (fun _ => SPSC.CallPop) [7; 8; 9])
        t_empty
      = Done (map (fun _ => SPSC.PushReturned true) [7; 8; 9]
                ++ map (fun v => SPSC.PopReturned (Some v)) [7; 8; 9], t')
      /\ SPSC.Empty t' = Done (true, t'))
  /\ (exists s',
      RB.run 4 Overwrite
        [CallPush 3; CallPop; CallPush 4; CallPush 5; CallPop; CallPop; CallPop;
         CallPop] s_one
      = Done ([PushReturned true; PopReturned (Some 2); PushReturned true;
               PushReturned true; PopReturned (Some 3); PopReturned (Some 4);
               PopReturned (Some 5); PopReturned None], s')
      /\ RB.contents 4 s' = [])
  /\ (exists t',
      SPSC.run 4
        [SPSC.CallPush 3; SPSC.CallPop; SPSC.CallEmpty; SPSC.CallPush 4;
         SPSC.CallPush 5; SPSC.CallPop; SPSC.CallPop; SPSC.CallPop;
         SPSC.CallEmpty; SPSC.CallPop] t_one
      = Done ([SPSC.PushReturned true; SPSC.PopReturned (Some 2);
               SPSC.EmptyReturned false; SPSC.PushReturned true;
               SPSC.PushReturned true; SPSC.PopReturned (Some 3);
               SPSC.PopReturned (Some 4); SPSC.PopReturned (Some 5);
               SPSC.EmptyReturned true; SPSC.PopReturned None], t')
      /\ SPSC.contents 4 t' = []).
Proof.
  assert (Rs_empty : RB.reachable 4 Overwrite 0
                       {| buffer_ := [1; 2; 3; 0]; tail := 3; head := 3 |}).
  { exists [CallPush 1; CallPush 2; CallPush 3; CallPop; CallPop; CallPop],
           [PushReturned true; PushReturned true; PushReturned true;
            PopReturned (Some 1); PopReturned (Some 2); PopReturned (Some 3)].
    reflexivity. }
  assert (Rs_one : RB.reachable 4 Overwrite 0
                     {| buffer_ := [1; 2; 0; 0]; tail := 2; head := 1 |}).
  { exists [CallPush 1; CallPush 2; CallPop],
           [PushReturned true; PushReturned true; PopReturned (Some 1)].
    reflexivity. }
  assert (Rt_empty : SPSC.reachable 4 0
                       {| spsc_buffer_ := [1; 2; 3; 0]; spsc_tail := 3;
                          spsc_head := 3; drop_count := 0 |}).
  { exists [SPSC.CallPush 1; SPSC.CallPush 2; SPSC.CallPush 3; SPSC.CallPop;
            SPSC.CallPop; SPSC.CallPop],
           [SPSC.PushReturned true; SPSC.PushReturned true;
            SPSC.PushReturned true; SPSC.PopReturned (Some 1);
            SPSC.PopReturned (Some 2); SPSC.PopReturned (Some 3)].
    reflexivity. }
  assert (Rt_one : SPSC.reachable 4 0
                     {| spsc_buffer_ := [1; 2; 0; 0]; spsc_tail := 2;
                        spsc_head := 1; drop_count := 0 |}).
  { exists [SPSC.CallPush 1; SPSC.CallPush 2; SPSC.CallPop],
           [SPSC.PushReturned true; SPSC.PushReturned true;
            SPSC.PopReturned (Some 1)].
    reflexivity. }
  split; [|split; [|split]].
  - destruct (fifo_order Z 4 0 Overwrite
                {| buffer_ := [1; 2; 3; 0]; tail := 3; head := 3 |}
                {| spsc_buffer_ := [1; 2; 3; 0]; spsc_tail := 3;
                   spsc_head := 3; drop_count := 0 |}
                [7; 8; 9] [] [] eq_refl) as (_ & H & _).
    apply (H Rs_empty eq_refl). cbn. lia.
  - destruct (fifo_order Z 4 0 Overwrite
                {| buffer_ := [1; 2; 3; 0]; tail := 3; head := 3 |}
                {| spsc_buffer_ := [1; 2; 3; 0]; spsc_tail := 3;
                   spsc_head := 3; drop_count := 0 |}
                [7; 8; 9] [] [] eq_refl) as (_ & _ & H & _).
    apply (H Rt_empty eq_refl). cbn. lia.
  - destruct (fifo_order Z 4 0 Overwrite
                {| buffer_ := [1; 2; 0; 0]; tail := 2; head := 1 |}
                {| spsc_buffer_ := [1; 2; 0; 0]; spsc_tail := 2;
                   spsc_head := 1; drop_count := 0 |}
                []
                [CallPush 3; CallPop; CallPush 4; CallPush 5; CallPop; CallPop;
                 CallPop; CallPop]
                [] eq_refl) as (_ & _ & _ & H & _).
    destruct (H Rs_one eq_refl) as (rs & s' & Hrun & Hrs & Hq & _).
    exists s'. rewrite Hrs in Hrun. split; [exact Hrun | exact Hq].
  - destruct (fifo_order Z 4 0 Overwrite
                {| buffer_ := [1; 2; 0; 0]; tail := 2; head := 1 |}
                {| spsc_buffer_ := [1; 2; 0; 0]; spsc_tail := 2;
                   spsc_head := 1; drop_count := 0 |}
                [] []
                [SPSC.CallPush 3; SPSC.CallPop; SPSC.CallEmpty; SPSC.CallPush 4;
                 SPSC.CallPush 5; SPSC.CallPop; SPSC.CallPop; SPSC.CallPop;
                 SPSC.CallEmpty; SPSC.CallPop]
                eq_refl) as (_ & _ & _ & _ & H).
    destruct (H Rt_one eq_refl) as (rs & t' & Hrun & Hrs & Hq & _).
    exists t'. rewrite Hrs in Hrun. split; [exact Hrun | exact Hq].
Defined.

(** C2 (Overwrite policy).  Under [OverflowPolicy::Overwrite], in every
    reachable state with [Size() == Capacity - 1], [Push(v)] returns [true],
    moves [head] to [(head + 1) & Mask] (the oldest element leaves the
    queue), stores [v] in the slot at the old [tail] and touches no other
    slot, moves [tail] on by one, and leaves [Size()] at [Capacity - 1].
    For capacity 4: after pushing 1, 2, 3 and then 4, all returning [true],
    [Pop] returns 2, and [Size()] is then 2. *)
Theorem overwrite_policy :
  (forall (T : Type) (Capacity : Z) (zero : T) (s : RingBuffer T) (v : T),
     accepts Capacity = true ->
     RB.reachable Capacity Overwrite zero s ->
     RB.Size Capacity s = Done (Capacity - 1, s) ->
     exists s',
       RB.Push Capacity Overwrite v s = Done (true, s')
       /\ head s' = Z.land (SizeT.add (head s) 1) (RB.Mask Capacity)
       /\ tail s' = Z.land (SizeT.add (tail s) 1) (RB.Mask Capacity)
       /\ slot (buffer_ s') (tail s) = Some v
       /\ (forall j, j <> tail s -> slot (buffer_ s') j = slot (buffer_ s) j)
       /\ RB.contents Capacity s' = tl (RB.contents Capacity s ++ [v])
       /\ RB.Size Capacity s' = Done (Capacity - 1, s'))
  /\ (exists s',
        RB.run 4 Overwrite
          [CallPush 1; CallPush 2; CallPush 3; CallPush 4; CallPop] (RB.init 4 0)
        = Done ([PushReturned true; PushReturned true; PushReturned true;
                 PushReturned true; PopReturned (Some 2)], s')
        /\ RB.Size 4 s' = Done (2, s')).
Proof.
  split.
  - intros T Capacity zero s v Hacc Hreach HSize.
    pose proof (reachable_wf Capacity Hacc Overwrite zero s Hreach) as Hwf.
    pose proof Hwf as (Hl & Hh & Ht).
    rewrite Size_value in HSize.
    assert (Hsz : RB.size Capacity s = Capacity - 1) by congruence.
    assert (Hfull : RB.full Capacity s = true) by (apply full_size; assumption).
    pose proof (Push_full_Overwrite Capacity v s Hwf Hfull) as HP.
    set (s' := {| buffer_ := <[Z.to_nat (tail s) := v]> (buffer_ s);
                  tail := Z.land (SizeT.add (tail s) 1) (RB.Mask Capacity);
                  head := Z.land (SizeT.add (head s) 1) (RB.Mask Capacity) |}) in *.
    assert (Hwf' : RB.wf Capacity s') by (eapply Push_wf; eauto).
    assert (Hc : RB.contents Capacity s' = tl (RB.contents Capacity s ++ [v]))
      by (apply contents_overwrite; assumption).
    exists s'. split; [exact HP|].
    split; [reflexivity|]. split; [reflexivity|].
    split; [apply slot_insert_eq; lia|].
    split; [intros j Hj; apply slot_insert_ne; [lia|congruence]|].
    split; [exact Hc|].
    rewrite Size_value. do 2 f_equal.
    apply size_overwrite; assumption.
  - eexists. split; reflexivity.
Qed.

Lemma overwrite_policy_witness :
  let s := {| buffer_ := [1; 2; 3; 0]; tail := 3; head := 0 |} in
  exists s',
    RB.Push 4 Overwrite 4 s = Done (true, s')
    /\ head s' = 1
    /\ tail s' = 0
    /\ slot (buffer_ s') 3 = Some 4
    /\ (forall j, j <> 3 -> slot (buffer_ s') j = slot (buffer_ s) j)
    /\ RB.contents 4 s' = [2; 3; 4]
    /\ RB.Size 4 s' = Done (3, s').
Proof.
  destruct overwrite_policy as [H _].
  refine (H Z 4 0 {| buffer_ := [1; 2; 3; 0]; tail := 3; head := 0 |} 4
            eq_refl _ eq_refl).
  exists [CallPush 1; CallPush 2; CallPush 3],
         [PushReturned true; PushReturned true; PushReturned true].
  reflexivity.
Defined.

(** C4 (Reject policy).  Under [OverflowPolicy::Reject], in every reachable
    state in which the buffer is full ([next(tail) == head]), [Push(v)]
    returns [false] and the object afterwards is the object before: [head],
    [tail], every slot, and hence [Size()], are unchanged, and [v] is not
    stored.  For capacity 4: the pushes of 1, 2, 3 return [true], the push of
    4 returns [false], and [Size()] is 3. *)
Theorem reject_policy :
  (forall (T : Type) (Capacity : Z) (zero : T) (s : RingBuffer T) (v : T),
     RB.reachable Capacity Reject zero s ->
     RB.full Capacity s = true ->
     RB.Push Capacity Reject v s = Done (false, s)
     /\ (forall s', RB.Push Capacity Reject v s = Done (false, s') ->
           head s' = head s /\ tail s' = tail s /\ buffer_ s' = buffer_ s
           /\ RB.Size Capacity s' = RB.Size Capacity s))
  /\ (exists s',
        RB.run 4 Reject [CallPush 1; CallPush 2; CallPush 3; CallPush 4]
          (RB.init 4 0)
        = Done ([PushReturned true; PushReturned true; PushReturned true;
                 PushReturned false], s')
        /\ RB.Size 4 s' = Done (3, s')).
Proof.
  split.
  - intros T Capacity zero s v _ Hfull.
    pose proof (Push_full_Reject Capacity v s Hfull) as HP.
    split; [exact HP|].
    intros s' HP'. rewrite HP in HP'. injection HP' as <-. auto.
  - eexists. split; reflexivity.
Qed.

Lemma reject_policy_witness :
  let s := {| buffer_ := [1; 2; 3; 0]; tail := 3; head := 0 |} in
  RB.Push 4 Reject 4 s = Done (false, s)
  /\ (forall s', RB.Push 4 Reject 4 s = Done (false, s') ->
        head s' = head s /\ tail s' = tail s /\ buffer_ s' = buffer_ s
        /\ RB.Size 4 s' = RB.Size 4 s).
Proof.
  destruct reject_policy as [H _].
  refine (H Z 4 0 {| buffer_ := [1; 2; 3; 0]; tail := 3; head := 0 |} 4
            _ eq_refl).
  exists [CallPush 1; CallPush 2; CallPush 3],
         [PushReturned true; PushReturned true; PushReturned true].
  reflexivity.
Defined.

(** C7 (Consistency).  In every state of the [RingBuffer] reached from the
    initial buffer by [Push] and [Pop] calls, under either policy, [Empty()]
    returns [true] exactly when [Size()] returns 0. *)
Theorem empty_iff_size_zero (T : Type) (Capacity : Z) (Policy : OverflowPolicy)
    (zero : T) (s : RingBuffer T) :
  accepts Capacity = true ->
  RB.reachable Capacity Policy zero s ->
  exists (e : bool) (n : Z),
    RB.Empty s = Done (e, s)
    /\ RB.Size Capacity s = Done (n, s)
    /\ (e = true <-> n = 0).
Proof.
  intros Hacc Hreach.
  pose proof (reachable_wf Capacity Hacc Policy zero s Hreach) as Hwf.
  exists (head s =? tail s), (RB.size Capacity s).
  split; [reflexivity|]. split; [reflexivity|].
  rewrite Z.eqb_eq. apply empty_size; assumption.
Qed.

Lemma empty_iff_size_zero_witness :
  let s := {| buffer_ := [1; 2; 3; 4]; tail := 0; head := 2 |} in
  exists (e : bool) (n : Z),
    RB.Empty s = Done (e, s) /\ RB.Size 4 s = Done (n, s) /\ (e = true <-> n = 0).
Proof.
  refine (empty_iff_size_zero Z 4 Overwrite 0
            {| buffer_ := [1; 2; 3; 4]; tail := 0; head := 2 |} eq_refl _).
  exists [CallPush 1; CallPush 2; CallPush 3; CallPush 4; CallPop],
         [PushReturned true; PushReturned true; PushReturned true;
          PushReturned true; PopReturned (Some 2)].
  reflexivity.
Defined.

(** C8 (Front).  In every reachable state of the [RingBuffer]: when the
    buffer is not empty, [Front()] returns the element in the slot at
    [head], which is the value the next [Pop] returns, and leaves the object
    as it was; when the buffer is empty, [Front()] stops at its assertion
    and returns no value. *)
Theorem front_spec (T : Type) (Capacity : Z) (Policy : OverflowPolicy)
    (zero : T) (s : RingBuffer T) :
  accepts Capacity = true ->
  RB.reachable Capacity Policy zero s ->
  (RB.Empty s = Done (false, s) ->
     exists x s',
       slot (buffer_ s) (head s) = Some x
       /\ RB.Front s = Done (x, s)
       /\ RB.Pop Capacity s = Done (Some x, s'))
  /\ (RB.Empty s = Done (true, s) -> RB.Front s = AssertionFailed).
Proof.
  intros Hacc Hreach.
  pose proof (reachable_wf Capacity Hacc Policy zero s Hreach) as Hwf.
  rewrite Empty_value. split; intros HE.
  - assert (Hne : head s <> tail s).
    { apply Z.eqb_neq. congruence. }
    destruct (wf_slot_head Capacity s Hwf) as [x Hx].
    exists x. eexists. split; [exact Hx|]. split.
    + apply Front_nonempty; assumption.
    + apply Pop_nonempty; assumption.
  - apply Front_empty. apply Z.eqb_eq. congruence.
Qed.

Lemma front_spec_witness :
  let s := {| buffer_ := [1; 2; 3; 4]; tail := 0; head := 2 |} in
  (exists x s',
      slot (buffer_ s) (head s) = Some x
      /\ RB.Front s = Done (x, s)
      /\ RB.Pop 4 s = Done (Some x, s'))
  /\ RB.Front (RB.init 4 0) = AssertionFailed.
Proof.
  split.
  - refine (proj1 (front_spec Z 4 Overwrite 0
                     {| buffer_ := [1; 2; 3; 4]; tail := 0; head := 2 |}
                     eq_refl _) eq_refl).
    exists [CallPush 1; CallPush 2; CallPush 3; CallPush 4; CallPop],
           [PushReturned true; PushReturned true; PushReturned true;
            PushReturned true; PopReturned (Some 2)].
    reflexivity.
  - refine (proj2 (front_spec Z 4 Overwrite 0 (RB.init 4 0) eq_refl _) eq_refl).
    exists [], []. reflexivity.
Defined.

(** C10 (frame of a successful Push).  For either variant, in every
    reachable state in which the buffer is not full, [Push(v)] returns
    [true]; afterwards the slot at the old [tail] holds [v], [tail] is
    [(tail + 1) & Mask], and [head], every other slot and, in the SPSC
    variant, [drop_count] are as before. *)
Theorem push_frame (T : Type) (Capacity : Z) (Policy : OverflowPolicy)
    (zero : T) (v : T) :
  accepts Capacity = true ->
  (forall s : RingBuffer T,
     RB.reachable Capacity Policy zero s ->
     RB.full Capacity s = false ->
     exists s',
       RB.Push Capacity Policy v s = Done (true, s')
       /\ slot (buffer_ s') (tail s) = Some v
       /\ (forall j, j <> tail s -> slot (buffer_ s') j = slot (buffer_ s) j)
       /\ length (buffer_ s') = length (buffer_ s)
       /\ tail s' = Z.land (SizeT.add (tail s) 1) (RB.Mask Capacity)
       /\ head s' = head s)
  /\ (forall s : SPSCRingBuffer T,
     SPSC.reachable Capacity zero s ->
     SPSC.full Capacity s = false ->
     exists s',
       SPSC.Push Capacity v s = Done (true, s')
       /\ slot (spsc_buffer_ s') (spsc_tail s) = Some v
       /\ (forall j, j <> spsc_tail s ->
             slot (spsc_buffer_ s') j = slot (spsc_buffer_ s) j)
       /\ length (spsc_buffer_ s') = length (spsc_buffer_ s)
       /\ spsc_tail s' = Z.land (SizeT.add (spsc_tail s) 1) (SPSC.Mask Capacity)
       /\ spsc_head s' = spsc_head s
       /\ drop_count s' = drop_count s).
Proof.
  intros Hacc. split.
  - intros s Hreach Hfull.
    pose proof (reachable_wf Capacity Hacc Policy zero s Hreach) as Hwf.
    pose proof Hwf as (Hl & Hh & Ht).
    eexists. split; [apply Push_not_full; assumption|].
    cbn [buffer_ tail head].
    split; [apply slot_insert_eq; lia|].
    split; [intros j Hj; apply slot_insert_ne; [lia|congruence]|].
    split; [apply length_insert|]. auto.
  - intros s Hreach Hfull.
    pose proof (spsc_reachable_wf Capacity Hacc zero s Hreach) as Hwf.
    pose proof Hwf as [(Hl & Hh & Ht) Hd]. cbn in Hl, Hh, Ht.
    eexists. split; [apply spsc_Push_not_full; assumption|].
    cbn [spsc_buffer_ spsc_tail spsc_head drop_count].
    split; [apply slot_insert_eq; lia|].
    split; [intros j Hj; apply slot_insert_ne; [lia|congruence]|].
    split; [apply length_insert|]. auto.
Qed.

Lemma push_frame_witness :
  (exists s',
      RB.Push 4 Reject 9 {| buffer_ := [1; 2; 0; 0]; tail := 2; head := 1 |}
      = Done (true, s')
      /\ buffer_ s' = [1; 2; 9; 0] /\ tail s' = 3 /\ head s' = 1)
  /\ (exists s',
      SPSC.Push 4 9 {| spsc_buffer_ := [1; 2; 0; 0]; spsc_tail := 2;
                       spsc_head := 1; drop_count := 0 |}
      = Done (true, s')
      /\ spsc_buffer_ s' = [1; 2; 9; 0] /\ spsc_tail s' = 3 /\ spsc_head s' = 1
      /\ drop_count s' = 0).
Proof.
  destruct (push_frame Z 4 Reject 0 9 eq_refl) as [HR HS].
  split.
  - destruct (HR {| buffer_ := [1; 2; 0; 0]; tail := 2; head := 1 |})
      as (s' & HP & _ & _ & _ & Ht & Hh).
    + exists [CallPush 1; CallPush 2; CallPop],
             [PushReturned true; PushReturned true; PopReturned (Some 1)].
      reflexivity.
    + reflexivity.
    + exists s'. split; [exact HP|].
      vm_compute in HP. injection HP as <-. auto.
  - destruct (HS {| spsc_buffer_ := [1; 2; 0; 0]; spsc_tail := 2;
                    spsc_head := 1; drop_count := 0 |})
      as (s' & HP & _ & _ & _ & Ht & Hh & Hd).
    + exists [SPSC.CallPush 1; SPSC.CallPush 2; SPSC.CallPop],
             [SPSC.PushReturned true; SPSC.PushReturned true;
              SPSC.PopReturned (Some 1)].
      reflexivity.
    + reflexivity.
    + exists s'. split; [exact HP|].
      vm_compute in HP. injection HP as <-. auto.
Defined.

(** C9 (index and size bounds).  For an accepted capacity and either
    variant, in every reachable state [head] and [tail] lie in
    [0, Capacity - 1], the array has [Capacity] slots, [Size()] (for the
    SPSC variant, the occupied count) lies in [0, Capacity - 1], and
    [Push], [Pop] and [Front] never access a slot outside the array: [Push]
    and [Pop] return, and [Front] returns or stops at its assertion. *)
Theorem index_bounds (T : Type) (Capacity : Z) (Policy : OverflowPolicy)
    (zero : T) (v : T) :
  accepts Capacity = true ->
  (forall s : RingBuffer T,
     RB.reachable Capacity Policy zero s ->
     0 <= head s <= Capacity - 1
     /\ 0 <= tail s <= Capacity - 1
     /\ Z.of_nat (length (buffer_ s)) = Capacity
     /\ (exists n, RB.Size Capacity s = Done (n, s) /\ 0 <= n <= Capacity - 1)
     /\ (exists b s', RB.Push Capacity Policy v s = Done (b, s'))
     /\ (exists r s', RB.Pop Capacity s = Done (r, s'))
     /\ RB.Front s <> OutOfBounds)
  /\ (forall s : SPSCRingBuffer T,
     SPSC.reachable Capacity zero s ->
     0 <= spsc_head s <= Capacity - 1
     /\ 0 <= spsc_tail s <= Capacity - 1
     /\ Z.of_nat (length (spsc_buffer_ s)) = Capacity
     /\ 0 <= SPSC.occupied_count Capacity s <= Capacity - 1
     /\ (exists b s', SPSC.Push Capacity v s = Done (b, s'))
     /\ (exists r s', SPSC.Pop Capacity s = Done (r, s'))).
Proof.
  intros Hacc. pose proof (Capacity_bounds _ Hacc) as Hb. split.
  - intros s Hreach.
    pose proof (reachable_wf Capacity Hacc Policy zero s Hreach) as Hwf.
    pose proof Hwf as (Hl & Hh & Ht).
    split; [lia|]. split; [lia|]. split; [lia|].
    split; [exists (RB.size Capacity s); split;
            [reflexivity | apply size_range, Hacc]|].
    split; [apply Push_returns; assumption|].
    split; [apply Pop_returns; assumption|].
    destruct (Z.eq_dec (head s) (tail s)) as [E|Hne].
    + rewrite Front_empty by assumption. discriminate.
    + destruct (wf_slot_head Capacity s Hwf) as [x Hx].
      rewrite (Front_nonempty s x) by assumption. discriminate.
  - intros s Hreach.
    pose proof (spsc_reachable_wf Capacity Hacc zero s Hreach) as Hwf.
    pose proof Hwf as [(Hl & Hh & Ht) Hd]. cbn in Hl, Hh, Ht.
    split; [lia|]. split; [lia|]. split; [lia|].
    split; [exact (size_range Capacity Hacc (SPSC.core s))|].
    split; [apply spsc_Push_returns; assumption|].
    apply spsc_Pop_returns; assumption.
Qed.

Lemma index_bounds_witness :
  let s := {| buffer_ := [1; 2; 3; 4]; tail := 0; head := 2 |} in
  (exists n, RB.Size 4 s = Done (n, s) /\ 0 <= n <= 4 - 1)
  /\ (exists b s', RB.Push 4 Overwrite 5 s = Done (b, s'))
  /\ (exists r s', RB.Pop 4 s = Done (r, s'))
  /\ RB.Front s <> OutOfBounds.
Proof.
  destruct (index_bounds Z 4 Overwrite 0 5 eq_refl) as [H _].
  refine (proj2 (proj2 (proj2
            (H {| buffer_ := [1; 2; 3; 4]; tail := 0; head := 2 |} _)))).
  exists [CallPush 1; CallPush 2; CallPush 3; CallPush 4; CallPop],
         [PushReturned true; PushReturned true; PushReturned true;
          PushReturned true; PopReturned (Some 2)].
  reflexivity.
Defined.

(** C6 (build-time capacity contract), as the code has it.  The static
    assertion of both headers passes for a [std::size_t] capacity exactly
    when it is a power of two [2^k] with [0 <= k < 64]: it fails, and the
    build is rejected, for 0 and for every capacity that is not a power of
    two, and it lets [Capacity = 1 = 2^0] through.  Nothing is said about
    what else an instantiation needs in order to compile. *)
Theorem capacity_contract (Capacity : Z) :
  accepts Capacity = true <-> exists k, 0 <= k < 64 /\ Capacity = 2 ^ k.
Proof.
  split.
  - apply accepted_pow2.
  - intros (k & Hk & ->). apply pow2_accepted, Hk.
Qed.

(** C6 as stated fails: capacity 1 is less than 2 and passes the static
    assertion; the instance can be used, and never holds an element. *)
Lemma capacity_one_accepted :
  1 < 2
  /\ capacity_assert 1 = true
  /\ accepts 1 = true
  /\ RB.Push 1 Reject 7 (RB.init 1 0) = Done (false, RB.init 1 0)
  /\ SPSC.Pop 1 (SPSC.init 1 0) = Done (None, SPSC.init 1 0).
Proof. repeat split; reflexivity || lia. Qed.

(** * Usable capacity *)

Section Filling.
Context {T : Type}.
Variable Capacity : Z.
Hypothesis Hacc : accepts Capacity = true.
Variable zero : T.
Variable vs : list T.
Hypothesis Hlen : Z.of_nat (length vs) = Capacity - 1.


End Filling.




(** * Drop accounting *)

Section Drops.
Context {T : Type}.
Variable Capacity : Z.

Implicit Types (s : SPSCRingBuffer T) (v : T).

(** Pushing into a full buffer [n] times fails [n] times. *)
Lemma spsc_run_full_pushes v (n : nat) : forall s,
  SPSC.full Capacity s = true ->
  exists s',
    SPSC.run Capacity (repeat (SPSC.CallPush v) n) s
    = Done (repeat (SPSC.PushReturned false) n, s').
Proof.
  induction n as [|n IH]; intros s Hfull.
  - exists s. reflexivity.
  - pose proof (spsc_Push_full Capacity v s Hfull) as HP.
    destruct (IH {| spsc_buffer_ := spsc_buffer_ s;
                    spsc_tail := spsc_tail s;
                    spsc_head := spsc_head s;
                    drop_count := SizeT.add (drop_count s) 1 |} Hfull)
      as (s' & Hrun).
    exists s'. cbn [repeat]. rewrite spsc_run_cons.
    unfold SPSC.perform, bind, ret. rewrite HP, Hrun. reflexivity.
Qed.

Lemma failed_pushes_repeat (n : nat) :
  SPSC.failed_pushes (repeat (SPSC.PushReturned (T := T) false) n) = Z.of_nat n.
Proof.
  induction n as [|n IH]; [reflexivity|].
  cbn [repeat]. rewrite failed_pushes_cons, IH. cbn [SPSC.is_failed_push]. lia.
Qed.
End Drops.

(** One successful push into a buffer of capacity 2 followed by [N] pushes
    into the full buffer, for [N] the size of the counter's range. *)
Lemma spsc_wrapping_run {T : Type} (zero : T) (N : nat) :
  Z.of_nat N = SizeT.modulus ->
  exists rs s',
    SPSC.run 2 (repeat (SPSC.CallPush zero) (S N)) (SPSC.init 2 zero)
    = Done (rs, s')
    /\ SPSC.failed_pushes rs = SizeT.modulus
    /\ SPSC.GetDropCount s' = Done (0, s').
Proof.
  intros HN.
  set (s1 := {| spsc_buffer_ := [zero; zero]; spsc_tail := 1; spsc_head := 0;
                drop_count := 0 |}).
  assert (H1 : SPSC.perform 2 (SPSC.CallPush zero) (SPSC.init 2 zero)
               = Done (SPSC.PushReturned true, s1)) by reflexivity.
  assert (Hfull : SPSC.full 2 s1 = true) by reflexivity.
  destruct (spsc_run_full_pushes 2 zero N s1 Hfull) as (s' & Hrun).
  assert (Hwf1 : SPSC.wf 2 s1).
  { eapply spsc_perform_wf; [reflexivity| |exact H1].
    apply spsc_wf_init. reflexivity. }
  pose proof (spsc_run_drop_count 2 eq_refl _ _ _ _ Hwf1 Hrun) as Hd.
  rewrite failed_pushes_repeat, HN in Hd.
  change (drop_count s1) with 0 in Hd. rewrite Z.add_0_l in Hd.
  unfold SizeT.wrap in Hd.
  rewrite Z.mod_same in Hd by (rewrite modulus_value; discriminate).
  exists (SPSC.PushReturned true :: repeat (SPSC.PushReturned false) N), s'.
  split; [|split].
  - cbn [repeat]. rewrite spsc_run_cons, H1, Hrun. reflexivity.
  - rewrite failed_pushes_cons, failed_pushes_repeat, HN. reflexivity.
  - unfold_spsc. rewrite Hd. reflexivity.
Qed.

(** C5 (drop accounting, SPSC), as the code has it.  In every reachable
    state of an [SPSCRingBuffer] of accepted capacity:
    - [Push] returns [false] exactly when the buffer is full at the call;
      a [Push] that returns [false] sets [drop_count] to
      [(drop_count + 1) mod 2^64], which is [drop_count + 1] unless the
      counter was at its maximum; a [Push] that returns [true] leaves it
      unchanged;
    - [Pop], [Empty] and [GetDropCount] leave it unchanged.
    Hence after any sequence of calls on the initial buffer [GetDropCount()]
    is the number of [Push] calls that returned [false], modulo [2^64], and
    is that number itself while it is below [2^64].  For capacity 8: seven
    pushes return [true], the eighth returns [false], and [GetDropCount()]
    is 1. *)
Theorem drop_accounting :
  (forall (T : Type) (Capacity : Z) (zero : T) (s : SPSCRingBuffer T) (v : T),
     accepts Capacity = true ->
     SPSC.reachable Capacity zero s ->
     (exists b s',
        SPSC.Push Capacity v s = Done (b, s')
        /\ (b = false <-> SPSC.full Capacity s = true)
        /\ drop_count s'
           = (if b then drop_count s else (drop_count s + 1) mod SizeT.modulus)
        /\ (b = false -> drop_count s < SizeT.modulus - 1 ->
            drop_count s' = drop_count s + 1))
     /\ (exists r s',
           SPSC.Pop Capacity s = Done (r, s') /\ drop_count s' = drop_count s)
     /\ (exists e, SPSC.Empty s = Done (e, s))
     /\ SPSC.GetDropCount s = Done (drop_count s, s))
  /\ (forall (T : Type) (Capacity : Z) (zero : T) (cs : list (SPSC.call (T := T))),
        accepts Capacity = true ->
        exists rs s',
          SPSC.run Capacity cs (SPSC.init Capacity zero) = Done (rs, s')
          /\ SPSC.GetDropCount s'
             = Done (SPSC.failed_pushes rs mod SizeT.modulus, s')
          /\ (SPSC.failed_pushes rs < SizeT.modulus ->
              SPSC.GetDropCount s' = Done (SPSC.failed_pushes rs, s')))
  /\ (exists s',
        SPSC.run 8 (map SPSC.CallPush [1; 2; 3; 4; 5; 6; 7; 8]) (SPSC.init 8 0)
        = Done (map (fun _ => SPSC.PushReturned true) [1; 2; 3; 4; 5; 6; 7]
                  ++ [SPSC.PushReturned false], s')
        /\ SPSC.GetDropCount s' = Done (1, s')).
Proof.
  split; [|split].
  - intros T Capacity zero s v Hacc Hreach.
    pose proof (spsc_reachable_wf Capacity Hacc zero s Hreach) as Hwf.
    pose proof Hwf as [Hc Hd].
    split; [|split; [|split]].
    + destruct (SPSC.full Capacity s) eqn:Hfull.
      * eexists _, _. split; [apply spsc_Push_full, Hfull|].
        cbn [drop_count]. split; [tauto|]. split; [reflexivity|].
        intros _ Hlt. unfold SizeT.add, SizeT.wrap. apply Z.mod_small. lia.
      * eexists _, _. split; [apply spsc_Push_not_full; assumption|].
        cbn [drop_count]. split; [split; discriminate|].
        split; [reflexivity|]. discriminate.
    + destruct (Z.eq_dec (spsc_head s) (spsc_tail s)) as [E|Hne].
      * eexists _, _. split; [apply spsc_Pop_empty, E|reflexivity].
      * destruct (wf_slot_head Capacity _ Hc) as [x Hx]. cbn in Hx.
        eexists _, _. split; [apply spsc_Pop_nonempty; eassumption|reflexivity].
    + eexists. reflexivity.
    + reflexivity.
  - intros T Capacity zero cs Hacc.
    pose proof (spsc_wf_init Capacity Hacc zero) as Hwf.
    destruct (spsc_run_returns Capacity Hacc cs _ Hwf) as (rs & s' & Hrun).
    pose proof (spsc_run_drop_count Capacity Hacc cs _ _ _ Hwf Hrun) as Hd.
    cbn [SPSC.init drop_count] in Hd. rewrite Z.add_0_l in Hd.
    exists rs, s'. split; [exact Hrun|].
    assert (HG : SPSC.GetDropCount s'
                 = Done (SPSC.failed_pushes rs mod SizeT.modulus, s')).
    { unfold_spsc. rewrite Hd. reflexivity. }
    split; [exact HG|].
    intros Hlt. rewrite HG, Z.mod_small; [reflexivity|].
    pose proof (failed_pushes_nonneg rs). lia.
  - exists {| spsc_buffer_ := [1; 2; 3; 4; 5; 6; 7; 0]; spsc_tail := 7;
              spsc_head := 0; drop_count := 1 |}.
    split; vm_compute; reflexivity.
Qed.

Lemma drop_accounting_witness :
  let s := {| spsc_buffer_ := [1; 0]; spsc_tail := 1; spsc_head := 0;
              drop_count := 0 |} in
  (exists b s',
      SPSC.Push 2 5 s = Done (b, s')
      /\ (b = false <-> SPSC.full 2 s = true)
      /\ drop_count s' = (if b then 0 else (0 + 1) mod SizeT.modulus)
      /\ (b = false -> 0 < SizeT.modulus - 1 -> drop_count s' = 0 + 1))
  /\ (exists rs s',
      SPSC.run 2 [SPSC.CallPush 1; SPSC.CallPush 2; SPSC.CallPop;
                  SPSC.CallGetDropCount; SPSC.CallPush 3; SPSC.CallPush 4]
        (SPSC.init 2 0) = Done (rs, s')
      /\ SPSC.GetDropCount s' = Done (SPSC.failed_pushes rs, s')).
Proof.
  destruct drop_accounting as (H1 & H2 & _).
  split.
  - refine (proj1 (H1 Z 2 0 {| spsc_buffer_ := [1; 0]; spsc_tail := 1;
                               spsc_head := 0; drop_count := 0 |} 5 eq_refl _)).
    exists [SPSC.CallPush 1], [SPSC.PushReturned true]. reflexivity.
  - destruct (H2 Z 2 0 [SPSC.CallPush 1; SPSC.CallPush 2; SPSC.CallPop;
                        SPSC.CallGetDropCount; SPSC.CallPush 3; SPSC.CallPush 4]
                eq_refl) as (rs & s' & Hrun & _ & HG).
    exists rs, s'. split; [exact Hrun|].
    apply HG. vm_compute in Hrun. injection Hrun as <- <-. reflexivity.
Defined.

(** C5 as stated fails once the counter wraps: on a buffer of capacity 2,
    one successful push followed by [2^64] pushes into the full buffer
    leaves [GetDropCount()] at 0, while [2^64] pushes returned [false]. *)
Lemma drop_count_wraps :
  exists rs s' n,
    SPSC.run 2 (repeat (SPSC.CallPush 0) (S (Z.to_nat SizeT.modulus)))
      (SPSC.init 2 0) = Done (rs, s')
    /\ SPSC.GetDropCount s' = Done (n, s')
    /\ SPSC.failed_pushes rs = 2 ^ 64
    /\ n = 0
    /\ n <> SPSC.failed_pushes rs.
Proof.
  destruct (spsc_wrapping_run 0 (Z.to_nat SizeT.modulus))
    as (rs & s' & Hrun & Hf & HG).
  { apply Z2Nat.id. rewrite modulus_value. discriminate. }
  exists rs, s', 0.
  split; [exact Hrun|]. split; [exact HG|]. split; [exact Hf|].
  split; [reflexivity|]. rewrite Hf, modulus_value. discriminate.
Qed.

(** * Further properties of the two headers *)

(** X1 ([Mask]).  For an accepted capacity, [Mask] is [Capacity - 1],
    [x & Mask] is [x mod Capacity] for every [x], and the successor
    [(i + 1) & Mask] of an index inside the array is [i + 1], except at the
    last slot, where it is 0. *)
Theorem mask_is_modulo (Capacity : Z) (x i : Z) :
  accepts Capacity = true ->
  RB.Mask Capacity = Capacity - 1
  /\ SPSC.Mask Capacity = Capacity - 1
  /\ Z.land x (RB.Mask Capacity) = x mod Capacity
  /\ (0 <= i < Capacity ->
      Z.land (SizeT.add i 1) (RB.Mask Capacity)
      = if i =? Capacity - 1 then 0 else i + 1).
Proof.
  intros Hacc.
  split; [apply Mask_value, Hacc|].
  split; [apply Mask_value, Hacc|].
  split; [apply land_Mask, Hacc|].
  intros Hi. rewrite next_index by exact Hacc.
  destruct (Z.eqb_spec i (Capacity - 1)) as [->|Hne].
  - replace (Capacity - 1 + 1) with Capacity by lia. apply Z.mod_same. lia.
  - apply Z.mod_small. lia.
Qed.

Lemma mask_is_modulo_witness :
  RB.Mask 8 = 7 /\ SPSC.Mask 8 = 7 /\ Z.land 29 (RB.Mask 8) = 5
  /\ Z.land (SizeT.add 7 1) (RB.Mask 8) = 0.
Proof.
  destruct (mask_is_modulo 8 29 7 eq_refl) as (H1 & H2 & H3 & H4).
  split; [exact H1|]. split; [exact H2|]. split; [exact H3|].
  apply H4. lia.
Defined.

(** X2 ([Size] across the wrap).  In every reachable state of a
    [RingBuffer] of accepted capacity, [Size()] returns [tail - head] when
    [head <= tail], and [tail - head + Capacity] when [tail] has wrapped
    around and lies below [head]; the object is unchanged. *)
Theorem size_across_wrap (T : Type) (Capacity : Z) (Policy : OverflowPolicy)
    (zero : T) (s : RingBuffer T) :
  accepts Capacity = true ->
  RB.reachable Capacity Policy zero s ->
  RB.Size Capacity s
  = Done (if head s <=? tail s then tail s - head s
          else tail s - head s + Capacity, s).
Proof.
  intros Hacc Hreach.
  pose proof (reachable_wf Capacity Hacc Policy zero s Hreach) as (Hl & Hh & Ht).
  rewrite Size_value, (size_value _ Hacc). do 2 f_equal.
  destruct (Z.leb_spec (head s) (tail s)).
  - apply Z.mod_small. lia.
  - rewrite <- (Z.mod_add (tail s - head s) 1 Capacity) by lia.
    rewrite Z.mod_small by lia. lia.
Qed.

Lemma size_across_wrap_witness :
  RB.Size 4 {| buffer_ := [5; 2; 3; 4]; tail := 1; head := 2 |}
  = Done (3, {| buffer_ := [5; 2; 3; 4]; tail := 1; head := 2 |}).
Proof.
  refine (size_across_wrap Z 4 Overwrite 0
            {| buffer_ := [5; 2; 3; 4]; tail := 1; head := 2 |} eq_refl _).
  exists [CallPush 1; CallPush 2; CallPush 3; CallPush 4; CallPop; CallPush 5],
         [PushReturned true; PushReturned true; PushReturned true;
          PushReturned true; PopReturned (Some 2); PushReturned true].
  reflexivity.
Defined.

(** [Front] returns the first of the queued elements. *)
Lemma Front_contents {T : Type} (Capacity : Z) (s : RingBuffer T) :
  accepts Capacity = true ->
  RB.wf Capacity s -> head s <> tail s ->
  exists x s',
    RB.contents Capacity s = x :: RB.contents Capacity s'
    /\ RB.Front s = Done (x, s)
    /\ RB.Pop Capacity s = Done (Some x, s')
    /\ RB.wf Capacity s'
    /\ buffer_ s' = buffer_ s /\ tail s' = tail s
    /\ head s' = Z.land (SizeT.add (head s) 1) (RB.Mask Capacity)
    /\ slot (buffer_ s) (head s) = Some x.
Proof.
  intros Hacc Hwf Hne.
  destruct (wf_slot_head Capacity s Hwf) as [x Hx].
  pose proof (Pop_nonempty Capacity s x Hne Hx) as HP.
  exists x. eexists. split; [apply contents_advance; eassumption|].
  split; [apply Front_nonempty; assumption|].
  split; [exact HP|].
  split; [eapply Pop_wf; eauto|]. cbn. auto.
Qed.

(** X3 ([RingBuffer::Pop]).  In every reachable state of a [RingBuffer] of
    accepted capacity: if [Empty()] is true, [Pop] returns [false] and
    changes nothing; otherwise [Pop] returns [true] with the element in the
    slot at [head], which is the oldest queued element, moves [head] to
    [(head + 1) & Mask], leaves [tail] and every slot as they were, and
    [Size()] goes down by exactly one. *)
Theorem pop_spec (T : Type) (Capacity : Z) (Policy : OverflowPolicy)
    (zero : T) (s : RingBuffer T) :
  accepts Capacity = true ->
  RB.reachable Capacity Policy zero s ->
  (RB.Empty s = Done (true, s) -> RB.Pop Capacity s = Done (None, s))
  /\ (RB.Empty s = Done (false, s) ->
      exists x s' n,
        RB.Pop Capacity s = Done (Some x, s')
        /\ slot (buffer_ s) (head s) = Some x
        /\ RB.contents Capacity s = x :: RB.contents Capacity s'
        /\ buffer_ s' = buffer_ s
        /\ tail s' = tail s
        /\ head s' = Z.land (SizeT.add (head s) 1) (RB.Mask Capacity)
        /\ RB.Size Capacity s = Done (n, s)
        /\ RB.Size Capacity s' = Done (n - 1, s')).
Proof.
  intros Hacc Hreach.
  pose proof (reachable_wf Capacity Hacc Policy zero s Hreach) as Hwf.
  rewrite Empty_value. split; intros HE.
  - apply Pop_empty, Z.eqb_eq. congruence.
  - assert (Hne : head s <> tail s) by (apply Z.eqb_neq; congruence).
    destruct (Front_contents Capacity s Hacc Hwf Hne)
      as (x & s' & Hc & _ & HP & Hwf' & Hb & Ht & Hh & Hx).
    exists x, s', (RB.size Capacity s).
    repeat (split; [assumption|]). split; [reflexivity|].
    rewrite Size_value. do 2 f_equal.
    rewrite <- (contents_length _ Hacc s' Hwf'), <- (contents_length _ Hacc s Hwf).
    rewrite Hc. cbn [length]. lia.
Qed.

Lemma pop_spec_witness :
  let s := {| buffer_ := [5; 2; 3; 4]; tail := 1; head := 2 |} in
  (exists x s' n,
      RB.Pop 4 s = Done (Some x, s')
      /\ slot (buffer_ s) (head s) = Some x
      /\ RB.contents 4 s = x :: RB.contents 4 s'
      /\ buffer_ s' = buffer_ s
      /\ tail s' = tail s
      /\ head s' = 3
      /\ RB.Size 4 s = Done (n, s)
      /\ RB.Size 4 s' = Done (n - 1, s'))
  /\ RB.Pop 4 (RB.init 4 0) = Done (None, RB.init 4 0).
Proof.
  split.
  - refine (proj2 (pop_spec Z 4 Overwrite 0
                     {| buffer_ := [5; 2; 3; 4]; tail := 1; head := 2 |}
                     eq_refl _) eq_refl).
    exists [CallPush 1; CallPush 2; CallPush 3; CallPush 4; CallPop; CallPush 5],
           [PushReturned true; PushReturned true; PushReturned true;
            PushReturned true; PopReturned (Some 2); PushReturned true].
    reflexivity.
  - refine (proj1 (pop_spec Z 4 Overwrite 0 (RB.init 4 0) eq_refl _) eq_refl).
    exists [], []. reflexivity.
Defined.

(** X4 ([SPSCRingBuffer::Pop]).  In every reachable state of an
    [SPSCRingBuffer] of accepted capacity: if [Empty()] is true, [Pop]
    returns [false] and changes nothing; otherwise it returns [true] with the
    oldest queued element, the one in the slot at [head], moves [head] to
    [(head + 1) & Mask], and leaves [tail], every slot and [drop_count] as
    they were. *)
Theorem spsc_pop_spec (T : Type) (Capacity : Z) (zero : T)
    (s : SPSCRingBuffer T) :
  accepts Capacity = true ->
  SPSC.reachable Capacity zero s ->
  (SPSC.Empty s = Done (true, s) -> SPSC.Pop Capacity s = Done (None, s))
  /\ (SPSC.Empty s = Done (false, s) ->
      exists x s',
        SPSC.Pop Capacity s = Done (Some x, s')
        /\ slot (spsc_buffer_ s) (spsc_head s) = Some x
        /\ SPSC.contents Capacity s = x :: SPSC.contents Capacity s'
        /\ spsc_buffer_ s' = spsc_buffer_ s
        /\ spsc_tail s' = spsc_tail s
        /\ spsc_head s' = Z.land (SizeT.add (spsc_head s) 1) (SPSC.Mask Capacity)
        /\ drop_count s' = drop_count s
        /\ SPSC.occupied_count Capacity s'
           = SPSC.occupied_count Capacity s - 1).
Proof.
  intros Hacc Hreach.
  pose proof (spsc_reachable_wf Capacity Hacc zero s Hreach) as Hwf.
  assert (HE : SPSC.Empty s = Done (spsc_head s =? spsc_tail s, s))
    by reflexivity.
  rewrite HE. split; intros HE'.
  - apply spsc_Pop_empty, Z.eqb_eq. congruence.
  - assert (Hne : spsc_head s <> spsc_tail s) by (apply Z.eqb_neq; congruence).
    destruct (wf_slot_head Capacity _ (proj1 Hwf)) as [x Hx]. cbn in Hx.
    pose proof (spsc_Pop_nonempty Capacity s x Hne Hx) as HP.
    pose proof (spsc_contents_taken Capacity Hacc s x Hwf Hne Hx) as Hc.
    pose proof (spsc_Pop_wf Capacity Hacc s _ _ Hwf HP) as Hwf'.
    exists x. eexists. split; [exact HP|].
    split; [exact Hx|]. split; [exact Hc|].
    cbn [spsc_buffer_ spsc_tail spsc_head drop_count].
    repeat (split; [reflexivity|]).
    pose proof (spsc_contents_length _ Hacc _ Hwf') as L'.
    pose proof (spsc_contents_length _ Hacc s Hwf) as L.
    rewrite Hc in L. cbn [length] in L. lia.
Qed.

Lemma spsc_pop_spec_witness :
  let s := {| spsc_buffer_ := [1; 2; 0; 0]; spsc_tail := 2; spsc_head := 1;
              drop_count := 0 |} in
  (exists x s',
      SPSC.Pop 4 s = Done (Some x, s')
      /\ slot (spsc_buffer_ s) (spsc_head s) = Some x
      /\ SPSC.contents 4 s = x :: SPSC.contents 4 s'
      /\ spsc_buffer_ s' = spsc_buffer_ s
      /\ spsc_tail s' = spsc_tail s
      /\ spsc_head s' = 2
      /\ drop_count s' = drop_count s
      /\ SPSC.occupied_count 4 s' = SPSC.occupied_count 4 s - 1)
  /\ SPSC.Pop 4 (SPSC.init 4 0) = Done (None, SPSC.init 4 0).
Proof.
  split.
  - refine (proj2 (spsc_pop_spec Z 4 0
                     {| spsc_buffer_ := [1; 2; 0; 0]; spsc_tail := 2;
                        spsc_head := 1; drop_count := 0 |} eq_refl _) eq_refl).
    exists [SPSC.CallPush 1; SPSC.CallPush 2; SPSC.CallPop],
           [SPSC.PushReturned true; SPSC.PushReturned true;
            SPSC.PopReturned (Some 1)].
    reflexivity.
  - refine (proj1 (spsc_pop_spec Z 4 0 (SPSC.init 4 0) eq_refl _) eq_refl).
    exists [], []. reflexivity.
Defined.

(** X5 (a [Push] that finds room).  In every reachable state of a
    [RingBuffer] of accepted capacity that is not full, [Push(v)] returns
    [true], appends [v] to the queued elements, raises [Size()] by exactly
    one, and [Front()] afterwards returns what was the oldest element
    before, or [v] itself when the buffer was empty. *)
Theorem push_appends (T : Type) (Capacity : Z) (Policy : OverflowPolicy)
    (zero : T) (s : RingBuffer T) (v : T) :
  accepts Capacity = true ->
  RB.reachable Capacity Policy zero s ->
  RB.full Capacity s = false ->
  exists s' n,
    RB.Push Capacity Policy v s = Done (true, s')
    /\ RB.contents Capacity s' = RB.contents Capacity s ++ [v]
    /\ RB.Size Capacity s = Done (n, s)
    /\ RB.Size Capacity s' = Done (n + 1, s')
    /\ RB.Front s' = Done (hd v (RB.contents Capacity s), s').
Proof.
  intros Hacc Hreach Hfull.
  pose proof (reachable_wf Capacity Hacc Policy zero s Hreach) as Hwf.
  pose proof (Push_not_full Capacity Policy v s Hwf Hfull) as HP.
  pose proof (contents_publish Capacity Hacc s v Hwf Hfull) as Hc.
  pose proof (Push_wf Capacity Hacc Policy v s _ _ Hwf HP) as Hwf'.
  set (s' := {| buffer_ := <[Z.to_nat (tail s) := v]> (buffer_ s);
                tail := Z.land (SizeT.add (tail s) 1) (RB.Mask Capacity);
                head := head s |}) in *.
  exists s', (RB.size Capacity s).
  split; [exact HP|]. split; [exact Hc|]. split; [reflexivity|].
  split.
  - rewrite Size_value. do 2 f_equal.
    rewrite <- (contents_length _ Hacc s' Hwf'), <- (contents_length _ Hacc s Hwf).
    rewrite Hc, length_app. cbn [length]. lia.
  - assert (Hne : head s' <> tail s').
    { unfold RB.full in Hfull. apply Z.eqb_neq in Hfull. cbn. congruence. }
    destruct (Front_contents Capacity s' Hacc Hwf' Hne)
      as (x & s2 & Hc2 & HF & _).
    rewrite HF. do 2 f_equal.
    rewrite Hc in Hc2.
    destruct (RB.contents Capacity s); cbn in Hc2 |- *; congruence.
Qed.

Lemma push_appends_witness :
  let s := {| buffer_ := [1; 2; 3; 4]; tail := 0; head := 2 |} in
  exists s' n,
    RB.Push 4 Overwrite 5 s = Done (true, s')
    /\ RB.contents 4 s' = RB.contents 4 s ++ [5]
    /\ RB.Size 4 s = Done (n, s)
    /\ RB.Size 4 s' = Done (n + 1, s')
    /\ RB.Front s' = Done (3, s').
Proof.
  refine (push_appends Z 4 Overwrite 0
            {| buffer_ := [1; 2; 3; 4]; tail := 0; head := 2 |} 5 eq_refl _
            eq_refl).
  exists [CallPush 1; CallPush 2; CallPush 3; CallPush 4; CallPop],
         [PushReturned true; PushReturned true; PushReturned true;
          PushReturned true; PopReturned (Some 2)].
  reflexivity.
Defined.

(** X6 (the retry loops, run sequentially).  When no other call runs in
    between, the compare-exchange of [Push]'s eviction loop and of [Pop]'s
    loop succeeds at its first attempt: with any positive number of turns
    allowed, [Push] and [Pop] do what they do with a single turn, in every
    state, and neither loop is ever left for want of turns. *)
Theorem loops_take_one_turn (T : Type) (Capacity : Z) (Policy : OverflowPolicy)
    (n : nat) (v : T) (s : RingBuffer T) :
  RB.Push_fuel Capacity Policy (S n) v s = RB.Push_fuel Capacity Policy 1 v s
  /\ RB.Pop_fuel Capacity (S n) s = RB.Pop_fuel Capacity 1 s
  /\ RB.Push_fuel Capacity Policy (S n) v s <> OutOfFuel
  /\ RB.Pop_fuel Capacity (S n) s <> OutOfFuel.
Proof.
  split; [apply Push_fuel_stable|]. split; [apply Pop_fuel_stable|].
  rewrite Push_fuel_stable, Pop_fuel_stable. split.
  - unfold_rb.
    destruct (Z.land (SizeT.add (tail s) 1) (RB.Mask Capacity) =? head s).
    + destruct Policy; [discriminate|].
      rewrite Z.eqb_refl. cbn.
      destruct (slot (buffer_ s) (tail s)); discriminate.
    + destruct (slot (buffer_ s) (tail s)); discriminate.
  - unfold_rb.
    destruct (head s =? tail s); [discriminate|].
    destruct (slot (buffer_ s) (head s)); [|discriminate].
    rewrite Z.eqb_refl. discriminate.
Qed.

(** X7 ([Pop] after a lost compare-exchange).  Let [Pop]'s loop start from
    a value [h] of [head] that is out of date: an index inside the array
    that is neither the current [head] nor [tail].  The compare-exchange
    fails, the loop reloads [head], and from its second turn on it does
    exactly what a fresh [Pop] does; in particular the element of the
    out-of-date slot is never returned, and one turn alone is not enough.
    If the out-of-date value equals [tail], the loop reports an empty buffer
    and changes nothing. *)
Theorem pop_retries_from_stale_head (T : Type) (Capacity : Z)
    (s : RingBuffer T) (h : Z) (n : nat) :
  RB.wf Capacity s ->
  0 <= h < Capacity ->
  h <> head s ->
  (h <> tail s ->
     RB.Pop_loop Capacity (S (S n)) h s = RB.Pop Capacity s
     /\ RB.Pop_loop Capacity 1 h s = OutOfFuel)
  /\ (h = tail s -> RB.Pop_loop Capacity (S n) h s = Done (None, s)).
Proof.
  intros (Hl & Hh & Ht) Hr Hstale. split.
  - intros Hnt.
    destruct (slot_Some (buffer_ s) h) as [y Hy]; [lia|].
    assert (Hturn : forall k,
               RB.Pop_loop Capacity (S k) h s
               = RB.Pop_loop Capacity k (head s) s).
    { intros k. cbn [RB.Pop_loop].
      unfold bind, RB.load_tail, RB.read_slot, RB.compare_exchange_head, ret.
      destruct (Z.eqb_spec h (tail s)) as [|_]; [contradiction|].
      rewrite Hy.
      destruct (Z.eqb_spec (head s) h) as [E|_]; [congruence|]. reflexivity. }
    split.
    + rewrite Hturn. exact (Pop_fuel_stable Capacity n s).
    + rewrite Hturn. reflexivity.
  - intros ->. cbn [RB.Pop_loop]. unfold bind, RB.load_tail, ret.
    rewrite Z.eqb_refl. reflexivity.
Qed.

Lemma pop_retries_from_stale_head_witness :
  let s := {| buffer_ := [5; 2; 3; 4]; tail := 1; head := 3 |} in
  RB.Pop_loop 4 2 2 s
  = Done (Some 4, {| buffer_ := [5; 2; 3; 4]; tail := 1; head := 0 |})
  /\ RB.Pop_loop 4 1 2 s = OutOfFuel.
Proof.
  refine (proj1 (pop_retries_from_stale_head Z 4
                   {| buffer_ := [5; 2; 3; 4]; tail := 1; head := 3 |} 2 0
                   _ _ _) _).
  - repeat split; cbn; lia.
  - lia.
  - cbn. lia.
  - cbn. lia.
Defined.

(** X8 (the eviction loop of the overwriting [Push]).  The loop is given
    the producer's view: [next_tail], the value [h] it loaded from [head],
    and [next_head].  If [h] is still the current [head], one turn stores
    [next_head] into [head].  If [head] has moved on and the buffer is no
    longer full ([next_tail <> head]), the loop ends without evicting
    anything.  If [head] has moved on and the buffer is full again
    ([next_tail = head]), the second turn advances the current [head] by one
    slot.  In every case [tail] and the slots are untouched. *)
Theorem evict_spec (T : Type) (Capacity : Z) (s : RingBuffer T)
    (next_tail h next_head : Z) (n : nat) :
  (h = head s ->
     RB.evict Capacity (S n) next_tail h next_head s
     = Done (tt, {| buffer_ := buffer_ s; tail := tail s; head := next_head |}))
  /\ (h <> head s -> next_tail <> head s ->
     RB.evict Capacity (S n) next_tail h next_head s = Done (tt, s))
  /\ (h <> head s -> next_tail = head s ->
     RB.evict Capacity (S (S n)) next_tail h next_head s
     = Done (tt, {| buffer_ := buffer_ s; tail := tail s;
                    head := Z.land (SizeT.add (head s) 1) (RB.Mask Capacity) |})).
Proof.
  split; [|split].
  - intros ->. cbn [RB.evict]. unfold bind, RB.compare_exchange_head, ret.
    rewrite Z.eqb_refl. reflexivity.
  - intros Hh Hnt. cbn [RB.evict]. unfold bind, RB.compare_exchange_head, ret.
    destruct (Z.eqb_spec (head s) h) as [E|_]; [congruence|].
    destruct (Z.eqb_spec next_tail (head s)) as [E|_]; [contradiction|].
    reflexivity.
  - intros Hh ->. cbn [RB.evict]. unfold bind, RB.compare_exchange_head, ret.
    destruct (Z.eqb_spec (head s) h) as [E|_]; [congruence|].
    rewrite Z.eqb_refl. cbn [negb RB.evict].
    unfold bind, RB.compare_exchange_head, ret.
    rewrite Z.eqb_refl. reflexivity.
Qed.

Lemma evict_spec_witness :
  let s := {| buffer_ := [5; 2; 3; 4]; tail := 1; head := 2 |} in
  RB.evict 4 1 2 2 3 s
  = Done (tt, {| buffer_ := [5; 2; 3; 4]; tail := 1; head := 3 |})
  /\ RB.evict 4 1 1 0 1 s = Done (tt, s)
  /\ RB.evict 4 2 2 1 2 s
     = Done (tt, {| buffer_ := [5; 2; 3; 4]; tail := 1; head := 3 |}).
Proof.
  split; [|split].
  - refine (proj1 (evict_spec Z 4 {| buffer_ := [5; 2; 3; 4]; tail := 1;
                                     head := 2 |} 2 2 3 0) eq_refl).
  - refine (proj1 (proj2 (evict_spec Z 4 {| buffer_ := [5; 2; 3; 4]; tail := 1;
                                            head := 2 |} 1 0 1 0)) _ _);
      cbn; lia.
  - refine (proj2 (proj2 (evict_spec Z 4 {| buffer_ := [5; 2; 3; 4]; tail := 1;
                                            head := 2 |} 2 1 2 0)) _ eq_refl).
    cbn. lia.
Defined.

(** ** Pushing past the capacity *)

Lemma drop_excess_absorb {A : Type} (m : nat) (a b : list A) :
  drop (length (drop (length a - m) a ++ b) - m) (drop (length a - m) a ++ b)
  = drop (length (a ++ b) - m) (a ++ b).
Proof.
  assert (E : a ++ b = take (length a - m) a ++ (drop (length a - m) a ++ b))
    by (rewrite app_assoc, take_drop; reflexivity).
  rewrite !length_app, length_drop.
  rewrite E.
  rewrite (drop_app_ge (take (length a - m) a))
    by (rewrite length_take; lia).
  f_equal. rewrite length_take. lia.
Qed.

Section Overflowing.
Context {T : Type}.
Variable Capacity : Z.
Hypothesis Hacc : accepts Capacity = true.

Implicit Types (s : RingBuffer T) (v : T) (vs : list T).

Local Abbreviation room := (Z.to_nat (Capacity - 1)).

Lemma contents_room s :
  RB.wf Capacity s -> (length (RB.contents Capacity s) <= room)%nat.
Proof using Hacc.
  intros Hwf. pose proof (contents_length _ Hacc s Hwf).
  pose proof (size_range _ Hacc s). lia.
Qed.

Lemma full_contents s :
  RB.wf Capacity s ->
  (RB.full Capacity s = true <-> length (RB.contents Capacity s) = room).
Proof using Hacc.
  intros Hwf. rewrite (full_size _ Hacc s Hwf).
  pose proof (contents_length _ Hacc s Hwf).
  pose proof (size_range _ Hacc s). lia.
Qed.

(** One overwriting [Push]: the newest [Capacity - 1] of the old elements
    and [v] remain. *)
Lemma overwrite_push_latest v s :
  RB.wf Capacity s ->
  exists s',
    RB.Push Capacity Overwrite v s = Done (true, s')
    /\ RB.wf Capacity s'
    /\ RB.contents Capacity s'
       = drop (length (RB.contents Capacity s ++ [v]) - room)
           (RB.contents Capacity s ++ [v]).
Proof using Hacc.
  intros Hwf. pose proof (contents_room s Hwf) as Hle.
  destruct (RB.full Capacity s) eqn:Hfull.
  - pose proof (Push_full_Overwrite Capacity v s Hwf Hfull) as HP.
    eexists. split; [exact HP|]. split; [eapply Push_wf; eauto|].
    rewrite (contents_overwrite _ Hacc) by assumption.
    apply (full_contents s Hwf) in Hfull.
    rewrite length_app. cbn [length].
    replace (length (RB.contents Capacity s) + 1 - room)%nat with 1%nat by lia.
    destruct (RB.contents Capacity s ++ [v]); reflexivity.
  - pose proof (Push_not_full Capacity Overwrite v s Hwf Hfull) as HP.
    eexists. split; [exact HP|]. split; [eapply Push_wf; eauto|].
    rewrite (contents_publish _ Hacc) by assumption.
    assert (length (RB.contents Capacity s) <> room).
    { intros E. apply (full_contents s Hwf) in E. congruence. }
    rewrite length_app. cbn [length].
    replace (length (RB.contents Capacity s) + 1 - room)%nat with 0%nat by lia.
    reflexivity.
Qed.

Lemma overwrite_pushes_latest vs : forall s,
  RB.wf Capacity s ->
  exists s',
    RB.run Capacity Overwrite (map CallPush vs) s
    = Done (map (fun _ => PushReturned true) vs, s')
    /\ RB.wf Capacity s'
    /\ RB.contents Capacity s'
       = drop (length (RB.contents Capacity s ++ vs) - room)
           (RB.contents Capacity s ++ vs).
Proof using Hacc.
  induction vs as [|v vs IH]; intros s Hwf.
  - exists s. split; [reflexivity|]. split; [exact Hwf|].
    rewrite app_nil_r. pose proof (contents_room s Hwf).
    replace (length (RB.contents Capacity s) - room)%nat with 0%nat by lia.
    reflexivity.
  - destruct (overwrite_push_latest v s Hwf) as (s1 & HP & Hwf1 & Hc1).
    destruct (IH s1 Hwf1) as (s' & Hrun & Hwf' & Hc).
    exists s'. split; [|split; [exact Hwf'|]].
    + cbn [map]. rewrite run_cons. unfold RB.perform, bind, ret.
      rewrite HP, Hrun. reflexivity.
    + rewrite Hc, Hc1, drop_excess_absorb, <- app_assoc. reflexivity.
Qed.

(** Pushes into a full buffer under [Reject]. *)
Lemma reject_full_pushes vs : forall s,
  RB.full Capacity s = true ->
  RB.run Capacity Reject (map CallPush vs) s
  = Done (map (fun _ => PushReturned false) vs, s).
Proof.
  induction vs as [|v vs IH]; intros s Hfull; [reflexivity|].
  cbn [map]. rewrite run_cons. unfold RB.perform, bind, ret.
  rewrite Push_full_Reject, IH by assumption. reflexivity.
Qed.

Lemma reject_pushes_earliest vs (zero : T) :
  exists s',
    RB.run Capacity Reject (map CallPush vs) (RB.init Capacity zero)
    = Done (map (fun _ => PushReturned true) (take room vs)
              ++ map (fun _ => PushReturned false) (drop room vs), s')
    /\ RB.wf Capacity s'
    /\ RB.contents Capacity s' = take room vs.
Proof using Hacc.
  pose proof (wf_init Capacity Hacc zero) as Hwf.
  pose proof (Capacity_bounds _ Hacc) as Hb.
  destruct (push_all Capacity Hacc Reject (take room vs) _ Hwf)
    as (s1 & Hr1 & Hc1 & Hwf1).
  { rewrite <- (contents_length _ Hacc _ Hwf), (contents_init _ Hacc).
    rewrite length_take. cbn [length]. lia. }
  rewrite (contents_init _ Hacc) in Hc1. cbn [app] in Hc1.
  exists s1. split; [|split; assumption].
  rewrite <- (take_drop room vs) at 1. rewrite map_app.
  eapply run_app; [exact Hr1|].
  destruct (Nat.le_gt_cases (length vs) room) as [Hle|Hgt].
  - rewrite drop_ge by exact Hle. reflexivity.
  - apply reject_full_pushes. apply (full_contents s1 Hwf1).
    rewrite Hc1, length_take. lia.
Qed.
End Overflowing.

(** X9 (what [Overwrite] keeps).  Under [OverflowPolicy::Overwrite], from
    every reachable state of a [RingBuffer] of accepted capacity, pushing any
    values [vs] returns [true] every time, and afterwards the buffer holds
    the newest [Capacity - 1] of the elements queued before followed by
    [vs], in order: everything older has been evicted. *)
Theorem overwrite_keeps_latest (T : Type) (Capacity : Z) (zero : T)
    (s : RingBuffer T) (vs : list T) :
  accepts Capacity = true ->
  RB.reachable Capacity Overwrite zero s ->
  exists s',
    RB.run Capacity Overwrite (map CallPush vs) s
    = Done (map (fun _ => PushReturned true) vs, s')
    /\ RB.contents Capacity s'
       = drop (length (RB.contents Capacity s ++ vs) - Z.to_nat (Capacity - 1))
           (RB.contents Capacity s ++ vs).
Proof.
  intros Hacc Hreach.
  pose proof (reachable_wf Capacity Hacc Overwrite zero s Hreach) as Hwf.
  destruct (overwrite_pushes_latest Capacity Hacc vs s Hwf)
    as (s' & Hrun & _ & Hc).
  exists s'. split; assumption.
Qed.

Lemma overwrite_keeps_latest_witness :
  exists s',
    RB.run 4 Overwrite (map CallPush [3; 4; 5; 6])
      {| buffer_ := [1; 2; 0; 0]; tail := 2; head := 1 |}
    = Done (map (fun _ => PushReturned true) [3; 4; 5; 6], s')
    /\ RB.contents 4 s' = [4; 5; 6].
Proof.
  refine (overwrite_keeps_latest Z 4 0
            {| buffer_ := [1; 2; 0; 0]; tail := 2; head := 1 |} [3; 4; 5; 6]
            eq_refl _).
  exists [CallPush 1; CallPush 2; CallPop],
         [PushReturned true; PushReturned true; PopReturned (Some 1)].
  reflexivity.
Defined.

(** X10 (what [Reject] keeps).  Under [OverflowPolicy::Reject], pushing any
    values [vs] into the initial buffer of a [RingBuffer] of accepted
    capacity returns [true] for the first [Capacity - 1] of them and [false]
    for all later ones, and afterwards the buffer holds exactly the first
    [Capacity - 1] values of [vs], in order. *)
Theorem reject_keeps_earliest (T : Type) (Capacity : Z) (zero : T)
    (vs : list T) :
  accepts Capacity = true ->
  exists s',
    RB.run Capacity Reject (map CallPush vs) (RB.init Capacity zero)
    = Done (map (fun _ => PushReturned true) (take (Z.to_nat (Capacity - 1)) vs)
              ++ map (fun _ => PushReturned false)
                   (drop (Z.to_nat (Capacity - 1)) vs), s')
    /\ RB.contents Capacity s' = take (Z.to_nat (Capacity - 1)) vs.
Proof.
  intros Hacc.
  destruct (reject_pushes_earliest Capacity Hacc vs zero)
    as (s' & Hrun & _ & Hc).
  exists s'. split; assumption.
Qed.

Lemma reject_keeps_earliest_witness :
  exists s',
    RB.run 4 Reject (map CallPush [1; 2; 3; 4; 5]) (RB.init 4 0)
    = Done ([PushReturned true; PushReturned true; PushReturned true;
             PushReturned false; PushReturned false], s')
    /\ RB.contents 4 s' = [1; 2; 3].
Proof. exact (reject_keeps_earliest Z 4 0 [1; 2; 3; 4; 5] eq_refl). Defined.

(** ** [Reject] with rejected pushes in between *)

Section Rejecting.
Context {T : Type}.
Variable Capacity : Z.
Hypothesis Hacc : accepts Capacity = true.

Implicit Types (s : RingBuffer T) (t : SPSCRingBuffer T) (v : T).

(** Under [Reject], the values whose [Push] returned [true] are the values
    popped followed by the values still queued. *)
Lemma reject_run_stored cs : forall s,
  RB.wf Capacity s ->
  exists rs s',
    RB.run Capacity Reject cs s = Done (rs, s')
    /\ RB.wf Capacity s'
    /\ RB.contents Capacity s ++ stored_values cs rs
       = popped rs ++ RB.contents Capacity s'.
Proof using Hacc.
  induction cs as [|c cs IH]; intros s Hwf.
  - exists [], s. cbn. rewrite app_nil_r. auto.
  - destruct c as [v|].
    + destruct (RB.full Capacity s) eqn:Hfull.
      * pose proof (Push_full_Reject Capacity v s Hfull) as HP.
        destruct (IH s Hwf) as (rs & s' & Hrun & Hwf' & Hq).
        exists (PushReturned false :: rs), s'. split; [|split; [exact Hwf'|]].
        -- rewrite run_cons. unfold RB.perform, bind, ret.
           rewrite HP, Hrun. reflexivity.
        -- exact Hq.
      * pose proof (Push_not_full Capacity Reject v s Hwf Hfull) as HP.
        pose proof (Push_wf Capacity Hacc Reject v s _ _ Hwf HP) as Hwf1.
        destruct (IH _ Hwf1) as (rs & s' & Hrun & Hwf' & Hq).
        exists (PushReturned true :: rs), s'. split; [|split; [exact Hwf'|]].
        -- rewrite run_cons. unfold RB.perform, bind, ret.
           rewrite HP, Hrun. reflexivity.
        -- rewrite (contents_publish _ Hacc) in Hq by assumption.
           rewrite <- app_assoc in Hq. exact Hq.
    + destruct (Z.eq_dec (head s) (tail s)) as [E|Hne].
      * pose proof (Pop_empty Capacity s E) as HP.
        destruct (IH s Hwf) as (rs & s' & Hrun & Hwf' & Hq).
        exists (PopReturned None :: rs), s'. split; [|split; [exact Hwf'|]].
        -- rewrite run_cons. unfold RB.perform, bind, ret.
           rewrite HP, Hrun. reflexivity.
        -- exact Hq.
      * destruct (wf_slot_head Capacity s Hwf) as [x Hx].
        pose proof (Pop_nonempty Capacity s x Hne Hx) as HP.
        pose proof (Pop_wf Capacity Hacc s _ _ Hwf HP) as Hwf1.
        destruct (IH _ Hwf1) as (rs & s' & Hrun & Hwf' & Hq).
        exists (PopReturned (Some x) :: rs), s'.
        split; [|split; [exact Hwf'|]].
        -- rewrite run_cons. unfold RB.perform, bind, ret.
           rewrite HP, Hrun. reflexivity.
        -- rewrite (contents_advance _ Hacc s x Hwf Hne Hx).
           change (popped (PopReturned (Some x) :: rs)) with (x :: popped rs).
           change (stored_values (CallPop :: cs) (PopReturned (Some x) :: rs))
             with (stored_values cs rs).
           cbn [app]. rewrite Hq. reflexivity.
Qed.

(** An [SPSCRingBuffer] answers [Push] and [Pop] as the [RingBuffer] with
    [Reject] does on the same slots and indices. *)
Lemma spsc_perform_simulates_reject c t :
  SPSC.wf Capacity t ->
  exists r t',
    RB.perform Capacity Reject c (SPSC.core t) = Done (r, SPSC.core t')
    /\ SPSC.perform Capacity (spsc_call_of c) t = Done (spsc_reply_of r, t')
    /\ SPSC.wf Capacity t'.
Proof using Hacc.
  intros Hwf. pose proof Hwf as [Hc Hd].
  destruct c as [v|]; cbn [spsc_call_of].
  - destruct (SPSC.full Capacity t) eqn:Hfull.
    + pose proof (spsc_Push_full Capacity v t Hfull) as HS.
      pose proof (Push_full_Reject Capacity v (SPSC.core t) Hfull) as HR.
      exists (PushReturned false). eexists.
      split; [|split; [|eapply spsc_Push_wf; eauto]].
      * unfold RB.perform, bind, ret. rewrite HR. reflexivity.
      * unfold SPSC.perform, bind, ret. rewrite HS. reflexivity.
    + pose proof (spsc_Push_not_full Capacity v t Hwf Hfull) as HS.
      pose proof (Push_not_full Capacity Reject v (SPSC.core t) Hc Hfull) as HR.
      exists (PushReturned true). eexists.
      split; [|split; [|eapply spsc_Push_wf; eauto]].
      * unfold RB.perform, bind, ret. rewrite HR. reflexivity.
      * unfold SPSC.perform, bind, ret. rewrite HS. reflexivity.
  - destruct (Z.eq_dec (spsc_head t) (spsc_tail t)) as [E|Hne].
    + pose proof (spsc_Pop_empty Capacity t E) as HS.
      pose proof (Pop_empty Capacity (SPSC.core t) E) as HR.
      exists (PopReturned None), t. split; [|split; [|exact Hwf]].
      * unfold RB.perform, bind, ret. rewrite HR. reflexivity.
      * unfold SPSC.perform, bind, ret. rewrite HS. reflexivity.
    + destruct (wf_slot_head Capacity _ Hc) as [x Hx].
      pose proof (spsc_Pop_nonempty Capacity t x Hne Hx) as HS.
      pose proof (Pop_nonempty Capacity (SPSC.core t) x Hne Hx) as HR.
      exists (PopReturned (Some x)). eexists.
      split; [|split; [|eapply spsc_Pop_wf; eauto]].
      * unfold RB.perform, bind, ret. rewrite HR. reflexivity.
      * unfold SPSC.perform, bind, ret. rewrite HS. reflexivity.
Qed.

Lemma spsc_simulates_reject cs : forall t,
  SPSC.wf Capacity t ->
  exists rs t',
    RB.run Capacity Reject cs (SPSC.core t) = Done (rs, SPSC.core t')
    /\ SPSC.run Capacity (map spsc_call_of cs) t
       = Done (map spsc_reply_of rs, t')
    /\ SPSC.wf Capacity t'.
Proof using Hacc.
  induction cs as [|c cs IH]; intros t Hwf.
  - exists [], t. auto.
  - destruct (spsc_perform_simulates_reject c t Hwf) as (r & t1 & HR & HS & Hwf1).
    destruct (IH t1 Hwf1) as (rs & t' & Hr & Hs & Hwf').
    exists (r :: rs), t'. split; [|split; [|exact Hwf']].
    + rewrite run_cons, HR, Hr. reflexivity.
    + cbn [map]. rewrite spsc_run_cons, HS, Hs. reflexivity.
Qed.
End Rejecting.

(** X11 (FIFO order with rejected pushes).  Under
    [OverflowPolicy::Reject], after any sequence of [Push] and [Pop] calls
    on the initial buffer of a [RingBuffer] of accepted capacity, every call
    has returned, and the values whose [Push] returned [true] are, in order,
    the values returned by [Pop] followed by the values still queued: a
    rejected value never shows up, and an accepted one is never lost,
    duplicated or reordered. *)
Theorem reject_fifo_with_overflow (T : Type) (Capacity : Z) (zero : T)
    (cs : list (call T)) :
  accepts Capacity = true ->
  exists rs s',
    RB.run Capacity Reject cs (RB.init Capacity zero) = Done (rs, s')
    /\ stored_values cs rs = popped rs ++ RB.contents Capacity s'.
Proof.
  intros Hacc.
  destruct (reject_run_stored Capacity Hacc cs _ (wf_init Capacity Hacc zero))
    as (rs & s' & Hrun & _ & Hq).
  rewrite (contents_init _ Hacc) in Hq.
  exists rs, s'. split; assumption.
Qed.

Lemma reject_fifo_with_overflow_witness :
  exists rs s',
    RB.run 2 Reject [CallPush 1; CallPush 2; CallPop; CallPush 3; CallPop; CallPop]
      (RB.init 2 0) = Done (rs, s')
    /\ stored_values
         [CallPush 1; CallPush 2; CallPop; CallPush 3; CallPop; CallPop] rs
       = popped rs ++ RB.contents 2 s'.
Proof.
  exact (reject_fifo_with_overflow Z 2 0
           [CallPush 1; CallPush 2; CallPop; CallPush 3; CallPop; CallPop]
           eq_refl).
Defined.

(** X12 ([SPSCRingBuffer] and [RingBuffer] with [Reject]).  From every
    reachable state of an [SPSCRingBuffer] of accepted capacity, any sequence
    of [Push] and [Pop] calls gets the same replies, and leaves the same
    slots, [head] and [tail], as the same calls made on a [RingBuffer] with
    [OverflowPolicy::Reject] that starts from those slots and indices. *)
Theorem spsc_behaves_as_reject (T : Type) (Capacity : Z) (zero : T)
    (t : SPSCRingBuffer T) (cs : list (call T)) :
  accepts Capacity = true ->
  SPSC.reachable Capacity zero t ->
  exists rs t',
    SPSC.run Capacity (map spsc_call_of cs) t = Done (map spsc_reply_of rs, t')
    /\ RB.run Capacity Reject cs
         {| buffer_ := spsc_buffer_ t; tail := spsc_tail t; head := spsc_head t |}
       = Done (rs, {| buffer_ := spsc_buffer_ t'; tail := spsc_tail t';
                      head := spsc_head t' |}).
Proof.
  intros Hacc Hreach.
  pose proof (spsc_reachable_wf Capacity Hacc zero t Hreach) as Hwf.
  destruct (spsc_simulates_reject Capacity Hacc cs t Hwf)
    as (rs & t' & Hr & Hs & _).
  exists rs, t'. split; [exact Hs | exact Hr].
Qed.

Lemma spsc_behaves_as_reject_witness :
  exists rs t',
    SPSC.run 2 (map spsc_call_of [CallPush 2; CallPop; CallPop; CallPush 3])
      {| spsc_buffer_ := [1; 0]; spsc_tail := 1; spsc_head := 0; drop_count := 0 |}
    = Done (map spsc_reply_of rs, t')
    /\ RB.run 2 Reject [CallPush 2; CallPop; CallPop; CallPush 3]
         {| buffer_ := [1; 0]; tail := 1; head := 0 |}
       = Done (rs, {| buffer_ := spsc_buffer_ t'; tail := spsc_tail t';
                      head := spsc_head t' |}).
Proof.
  refine (spsc_behaves_as_reject Z 2 0
            {| spsc_buffer_ := [1; 0]; spsc_tail := 1; spsc_head := 0;
               drop_count := 0 |}
            [CallPush 2; CallPop; CallPop; CallPush 3] eq_refl _).
  exists [SPSC.CallPush 1], [SPSC.PushReturned true]. reflexivity.
Defined.

(** ** The SPSC buffer past its capacity *)

Section SPSCOverflowing.
Context {T : Type}.
Variable Capacity : Z.
Hypothesis Hacc : accepts Capacity = true.

Implicit Types (t : SPSCRingBuffer T) (v : T) (vs : list T).

Local Abbreviation room := (Z.to_nat (Capacity - 1)).

Lemma spsc_full_pushes vs : forall t,
  SPSC.full Capacity t = true ->
  exists t',
    SPSC.run Capacity (map SPSC.CallPush vs) t
    = Done (map (fun _ => SPSC.PushReturned false) vs, t')
    /\ SPSC.core t' = SPSC.core t.
Proof.
  induction vs as [|v vs IH]; intros t Hfull.
  - exists t. split; reflexivity.
  - pose proof (spsc_Push_full Capacity v t Hfull) as HP.
    destruct (IH {| spsc_buffer_ := spsc_buffer_ t;
                    spsc_tail := spsc_tail t;
                    spsc_head := spsc_head t;
                    drop_count := SizeT.add (drop_count t) 1 |} Hfull)
      as (t' & Hrun & Hcore).
    exists t'. split; [|exact Hcore].
    cbn [map]. rewrite spsc_run_cons. unfold SPSC.perform, bind, ret.
    rewrite HP, Hrun. reflexivity.
Qed.

Lemma failed_pushes_true_false (xs ys : list T) :
  SPSC.failed_pushes
    (map (fun _ => SPSC.PushReturned (T := T) true) xs
       ++ map (fun _ => SPSC.PushReturned false) ys)
  = Z.of_nat (length ys).
Proof.
  induction xs as [|x xs IH]; cbn [map app].
  - induction ys as [|y ys IHy]; [reflexivity|].
    cbn [map length]. rewrite failed_pushes_cons, IHy.
    cbn [SPSC.is_failed_push]. lia.
  - rewrite failed_pushes_cons, IH. reflexivity.
Qed.

Lemma spsc_pushes_earliest vs (zero : T) :
  exists t',
    SPSC.run Capacity (map SPSC.CallPush vs) (SPSC.init Capacity zero)
    = Done (map (fun _ => SPSC.PushReturned true) (take room vs)
              ++ map (fun _ => SPSC.PushReturned false) (drop room vs), t')
    /\ SPSC.contents Capacity t' = take room vs
    /\ drop_count t' = Z.of_nat (length (drop room vs)) mod SizeT.modulus.
Proof using Hacc.
  pose proof (spsc_wf_init Capacity Hacc zero) as Hwf.
  pose proof (Capacity_bounds _ Hacc) as Hb.
  destruct (spsc_push_all Capacity Hacc (take room vs) _ Hwf)
    as (t1 & Hr1 & Hc1 & _ & Hwf1).
  { rewrite <- (spsc_contents_length _ Hacc _ Hwf), (spsc_contents_init _ Hacc).
    rewrite length_take. cbn [length]. lia. }
  rewrite (spsc_contents_init _ Hacc) in Hc1. cbn [app] in Hc1.
  assert (Hrest : exists t',
             SPSC.run Capacity (map SPSC.CallPush (drop room vs)) t1
             = Done (map (fun _ => SPSC.PushReturned false) (drop room vs), t')
             /\ SPSC.core t' = SPSC.core t1).
  { destruct (Nat.le_gt_cases (length vs) room) as [Hle|Hgt].
    - rewrite drop_ge by exact Hle. exists t1. split; reflexivity.
    - apply spsc_full_pushes. apply (spsc_full_count _ Hacc t1 Hwf1).
      rewrite <- (spsc_contents_length _ Hacc t1 Hwf1), Hc1, length_take. lia. }
  destruct Hrest as (t' & Hr2 & Hcore).
  pose proof (spsc_run_app Capacity _ _ _ _ _ _ _ Hr1 Hr2) as Hrun.
  rewrite <- map_app, take_drop in Hrun.
  exists t'. split; [exact Hrun|]. split.
  - rewrite spsc_contents_core, Hcore, <- spsc_contents_core. exact Hc1.
  - rewrite (spsc_run_drop_count Capacity Hacc _ _ _ _ Hwf Hrun).
    rewrite failed_pushes_true_false. reflexivity.
Qed.
End SPSCOverflowing.

(** X13 (what the SPSC buffer keeps, and what it counts).  Pushing any
    values [vs] into the initial buffer of an [SPSCRingBuffer] of accepted
    capacity returns [true] for the first [Capacity - 1] of them and [false]
    for all later ones; afterwards the buffer holds exactly the first
    [Capacity - 1] values of [vs], in order, and [GetDropCount()] is the
    number of the other values, modulo [2^64]. *)
Theorem spsc_keeps_earliest (T : Type) (Capacity : Z) (zero : T) (vs : list T) :
  accepts Capacity = true ->
  exists t',
    SPSC.run Capacity (map SPSC.CallPush vs) (SPSC.init Capacity zero)
    = Done (map (fun _ => SPSC.PushReturned true)
              (take (Z.to_nat (Capacity - 1)) vs)
              ++ map (fun _ => SPSC.PushReturned false)
                   (drop (Z.to_nat (Capacity - 1)) vs), t')
    /\ SPSC.contents Capacity t' = take (Z.to_nat (Capacity - 1)) vs
    /\ SPSC.GetDropCount t'
       = Done (Z.of_nat (length vs - Z.to_nat (Capacity - 1)) mod SizeT.modulus,
               t').
Proof.
  intros Hacc.
  destruct (spsc_pushes_earliest Capacity Hacc vs zero) as (t' & Hrun & Hc & Hd).
  exists t'. split; [exact Hrun|]. split; [exact Hc|].
  unfold_spsc. rewrite Hd, length_drop. reflexivity.
Qed.

Lemma spsc_keeps_earliest_witness :
  exists t',
    SPSC.run 4 (map SPSC.CallPush [1; 2; 3; 4; 5]) (SPSC.init 4 0)
    = Done ([SPSC.PushReturned true; SPSC.PushReturned true;
             SPSC.PushReturned true; SPSC.PushReturned false;
             SPSC.PushReturned false], t')
    /\ SPSC.contents 4 t' = [1; 2; 3]
    /\ SPSC.GetDropCount t' = Done (2, t').
Proof. exact (spsc_keeps_earliest Z 4 0 [1; 2; 3; 4; 5] eq_refl). Defined.

(** X14 (one writer per index).  In any state of an [SPSCRingBuffer], a
    [Push] that returns never writes [head], and writes no slot and no index
    at all when it returns [false]; a [Pop] that returns never writes
    [tail], a slot, or [drop_count]. *)
Theorem spsc_index_ownership (T : Type) (Capacity : Z) (s : SPSCRingBuffer T)
    (v : T) :
  (forall b s',
     SPSC.Push Capacity v s = Done (b, s') ->
     spsc_head s' = spsc_head s
     /\ (b = false ->
         spsc_buffer_ s' = spsc_buffer_ s /\ spsc_tail s' = spsc_tail s))
  /\ (forall r s',
     SPSC.Pop Capacity s = Done (r, s') ->
     spsc_tail s' = spsc_tail s
     /\ spsc_buffer_ s' = spsc_buffer_ s
     /\ drop_count s' = drop_count s).
Proof.
  split.
  - intros b s'. unfold_spsc.
    destruct (Z.land (SizeT.add (spsc_tail s) 1) (SPSC.Mask Capacity)
              =? spsc_head s).
    + intros H. injection H as <- <-. auto.
    + destruct (slot (spsc_buffer_ s) (spsc_tail s)); [|discriminate].
      intros H. injection H as <- <-. split; [reflexivity|discriminate].
  - intros r s'. unfold_spsc.
    destruct (spsc_head s =? spsc_tail s).
    + intros H. injection H as <- <-. auto.
    + destruct (slot (spsc_buffer_ s) (spsc_head s)); [|discriminate].
      intros H. injection H as <- <-. auto.
Qed.

Lemma spsc_index_ownership_witness :
  let s := {| spsc_buffer_ := [1; 0]; spsc_tail := 1; spsc_head := 0;
              drop_count := 0 |} in
  let after_push := {| spsc_buffer_ := [1; 0]; spsc_tail := 1; spsc_head := 0;
                       drop_count := 1 |} in
  let after_pop := {| spsc_buffer_ := [1; 0]; spsc_tail := 1; spsc_head := 1;
                      drop_count := 0 |} in
  SPSC.Push 2 7 s = Done (false, after_push)
  /\ spsc_head after_push = spsc_head s
  /\ SPSC.Pop 2 s = Done (Some 1, after_pop)
  /\ spsc_tail after_pop = spsc_tail s
  /\ spsc_buffer_ after_pop = spsc_buffer_ s
  /\ drop_count after_pop = drop_count s.
Proof.
  destruct (spsc_index_ownership Z 2
              {| spsc_buffer_ := [1; 0]; spsc_tail := 1; spsc_head := 0;
                 drop_count := 0 |} 7) as [HPush HPop].
  split; [reflexivity|].
  split; [exact (proj1 (HPush false _ eq_refl))|].
  split; [reflexivity|].
  exact (HPop (Some 1) _ eq_refl).
Defined.

(** ** Going round the array *)

Section Rounds.
Context {T : Type}.
Variable Capacity : Z.
Hypothesis Hacc : accepts Capacity = true.
Hypothesis Htwo : 2 <= Capacity.
Variable Policy : OverflowPolicy.

Implicit Types (s : RingBuffer T) (v : T).

(** One [Push] and one [Pop] on an empty buffer. *)
Lemma one_round v s :
  RB.wf Capacity s -> head s = tail s ->
  exists s',
    RB.run Capacity Policy [CallPush v; CallPop] s
    = Done ([PushReturned true; PopReturned (Some v)], s')
    /\ RB.wf Capacity s'
    /\ head s' = (head s + 1) mod Capacity
    /\ tail s' = (head s + 1) mod Capacity.
Proof using Hacc Htwo.
  intros Hwf He. pose proof Hwf as (Hl & Hh & Ht).
  assert (Hmove : Z.land (SizeT.add (tail s) 1) (RB.Mask Capacity) <> tail s)
    by (apply next_index_moves; assumption).
  assert (Hfull : RB.full Capacity s = false).
  { unfold RB.full. apply Z.eqb_neq. congruence. }
  pose proof (Push_not_full Capacity Policy v s Hwf Hfull) as HP.
  pose proof (Push_wf Capacity Hacc Policy v s _ _ Hwf HP) as Hwf1.
  set (s1 := {| buffer_ := <[Z.to_nat (tail s) := v]> (buffer_ s);
                tail := Z.land (SizeT.add (tail s) 1) (RB.Mask Capacity);
                head := head s |}) in *.
  assert (Hx : slot (buffer_ s1) (head s1) = Some v).
  { cbn. rewrite He. apply slot_insert_eq. lia. }
  assert (Hne : head s1 <> tail s1) by (cbn; congruence).
  pose proof (Pop_nonempty Capacity s1 v Hne Hx) as HQ.
  pose proof (Pop_wf Capacity Hacc s1 _ _ Hwf1 HQ) as Hwf2.
  eexists. split; [|split; [exact Hwf2|]].
  - rewrite run_cons. unfold RB.perform at 1, bind, ret. rewrite HP.
    rewrite run_cons. unfold RB.perform at 1, bind, ret. rewrite HQ.
    reflexivity.
  - subst s1. cbn [head tail].
    rewrite !next_index by exact Hacc. rewrite He. auto.
Qed.

Lemma many_rounds v (n : nat) : forall s,
  RB.wf Capacity s -> head s = tail s ->
  exists s',
    RB.run Capacity Policy (rounds n v) s = Done (round_replies n v, s')
    /\ head s' = (head s + Z.of_nat n) mod Capacity
    /\ tail s' = (head s + Z.of_nat n) mod Capacity.
Proof using Hacc Htwo.
  induction n as [|n IH]; intros s Hwf He.
  - exists s. pose proof Hwf as (Hl & Hh & Ht).
    rewrite Z.add_0_r, Z.mod_small by lia. auto.
  - destruct (one_round v s Hwf He) as (s1 & Hr1 & Hwf1 & Hh1 & Ht1).
    destruct (IH s1 Hwf1) as (s' & Hr & Hh' & Ht'); [congruence|].
    exists s'. split.
    + change (rounds (S n) v) with ([CallPush v; CallPop] ++ rounds n v).
      change (round_replies (S n) v)
        with ([PushReturned true; PopReturned (Some v)] ++ round_replies n v).
      eapply run_app; eassumption.
    + rewrite Hh', Ht', Hh1, Zplus_mod_idemp_l.
      replace (head s + 1 + Z.of_nat n) with (head s + Z.of_nat (S n)) by lia.
      auto.
Qed.
End Rounds.

(** X15 (going round the array).  On a [RingBuffer] of accepted capacity
    at least 2, under either policy, [n] rounds of one [Push(v)] followed by
    one [Pop] on the initial buffer succeed every time, each [Pop] returning
    [v], however often the indices wrap past the end of the array;
    afterwards [head] and [tail] are both [n mod Capacity]. *)
Theorem rounds_wrap_around (T : Type) (Capacity : Z) (Policy : OverflowPolicy)
    (zero v : T) (n : nat) :
  accepts Capacity = true ->
  2 <= Capacity ->
  exists s',
    RB.run Capacity Policy (rounds n v) (RB.init Capacity zero)
    = Done (round_replies n v, s')
    /\ head s' = Z.of_nat n mod Capacity
    /\ tail s' = Z.of_nat n mod Capacity.
Proof.
  intros Hacc Htwo.
  destruct (many_rounds Capacity Hacc Htwo Policy v n (RB.init Capacity zero)
              (wf_init Capacity Hacc zero) eq_refl) as (s' & Hrun & Hh & Ht).
  exists s'. split; [exact Hrun|]. cbn in Hh, Ht. auto.
Qed.

Lemma rounds_wrap_around_witness :
  exists s',
    RB.run 4 Reject (rounds 6 9) (RB.init 4 0) = Done (round_replies 6 9, s')
    /\ head s' = 2 /\ tail s' = 2.
Proof.
  refine (rounds_wrap_around Z 4 Reject 0 9 6 eq_refl _). lia.
Defined.

(** X16 (capacity 1).  The static assertion accepts capacity 1, and such a
    [RingBuffer] never holds an element: in every reachable state [Size()]
    is 0, [Empty()] is true and [Pop] returns [false]; under [Reject] every
    [Push] returns [false]; under [Overwrite] every [Push] returns [true],
    and the value is gone at once: the next [Pop] still returns [false]. *)
Theorem capacity_one_holds_nothing (T : Type) (Policy : OverflowPolicy)
    (zero : T) (s : RingBuffer T) (v : T) :
  RB.reachable 1 Policy zero s ->
  RB.Size 1 s = Done (0, s)
  /\ RB.Empty s = Done (true, s)
  /\ RB.Pop 1 s = Done (None, s)
  /\ RB.Push 1 Reject v s = Done (false, s)
  /\ exists s',
       RB.Push 1 Overwrite v s = Done (true, s')
       /\ RB.Size 1 s' = Done (0, s')
       /\ RB.Pop 1 s' = Done (None, s').
Proof.
  intros Hreach.
  pose proof (reachable_wf 1 eq_refl Policy zero s Hreach) as Hwf.
  pose proof Hwf as (Hl & Hh & Ht).
  assert (Eh : head s = 0) by lia. assert (Et : tail s = 0) by lia.
  assert (Hfull : RB.full 1 s = true).
  { unfold RB.full. rewrite Eh, Et. reflexivity. }
  split; [rewrite Size_value; unfold RB.size; rewrite Eh, Et; reflexivity|].
  split; [rewrite Empty_value, Eh, Et; reflexivity|].
  split; [apply Pop_empty; congruence|].
  split; [apply Push_full_Reject, Hfull|].
  eexists. split; [apply Push_full_Overwrite; assumption|].
  split.
  - rewrite Size_value. unfold RB.size. cbn [head tail].
    rewrite Eh, Et. reflexivity.
  - apply Pop_empty. cbn [head tail]. rewrite Eh, Et. reflexivity.
Qed.

Lemma capacity_one_holds_nothing_witness :
  let s := {| buffer_ := [7]; tail := 0; head := 0 |} in
  RB.Size 1 s = Done (0, s)
  /\ RB.Empty s = Done (true, s)
  /\ RB.Pop 1 s = Done (None, s)
  /\ RB.Push 1 Reject 8 s = Done (false, s)
  /\ exists s',
       RB.Push 1 Overwrite 8 s = Done (true, s')
       /\ RB.Size 1 s' = Done (0, s')
       /\ RB.Pop 1 s' = Done (None, s').
Proof.
  refine (capacity_one_holds_nothing Z Overwrite 0
            {| buffer_ := [7]; tail := 0; head := 0 |} 8 _).
  exists [CallPush 7], [PushReturned true]. reflexivity.
Defined.

(** ** [Overwrite] and the order of the elements *)

Section Overwriting.
Context {T : Type}.
Variable Capacity : Z.
Hypothesis Hacc : accepts Capacity = true.

Implicit Types (s : RingBuffer T) (v : T).

Lemma overwrite_run_sublist cs : forall s,
  RB.wf Capacity s ->
  exists rs s',
    RB.run Capacity Overwrite cs s = Done (rs, s')
    /\ RB.wf Capacity s'
    /\ Forall (fun r => r <> PushReturned false) rs
    /\ sublist (popped rs ++ RB.contents Capacity s')
         (RB.contents Capacity s ++ pushed cs).
Proof using Hacc.
  induction cs as [|c cs IH]; intros s Hwf.
  - exists [], s. split; [reflexivity|]. split; [exact Hwf|].
    split; [constructor|]. cbn. rewrite app_nil_r. reflexivity.
  - destruct c as [v|].
    + destruct (overwrite_push_latest Capacity Hacc v s Hwf)
        as (s1 & HP & Hwf1 & Hc1).
      destruct (IH s1 Hwf1) as (rs & s' & Hrun & Hwf' & Hall & Hsub).
      exists (PushReturned true :: rs), s'.
      split; [|split; [exact Hwf'|split]].
      * rewrite run_cons. unfold RB.perform, bind, ret.
        rewrite HP, Hrun. reflexivity.
      * constructor; [discriminate|exact Hall].
      * change (pushed (CallPush v :: cs)) with ([v] ++ pushed cs).
        change (popped (PushReturned true :: rs)) with (popped rs).
        rewrite app_assoc. etransitivity; [exact Hsub|].
        apply sublist_app; [|reflexivity].
        rewrite Hc1. apply sublist_drop.
    + destruct (Z.eq_dec (head s) (tail s)) as [E|Hne].
      * pose proof (Pop_empty Capacity s E) as HP.
        destruct (IH s Hwf) as (rs & s' & Hrun & Hwf' & Hall & Hsub).
        exists (PopReturned None :: rs), s'.
        split; [|split; [exact Hwf'|split]].
        -- rewrite run_cons. unfold RB.perform, bind, ret.
           rewrite HP, Hrun. reflexivity.
        -- constructor; [discriminate|exact Hall].
        -- exact Hsub.
      * destruct (wf_slot_head Capacity s Hwf) as [x Hx].
        pose proof (Pop_nonempty Capacity s x Hne Hx) as HP.
        pose proof (Pop_wf Capacity Hacc s _ _ Hwf HP) as Hwf1.
        destruct (IH _ Hwf1) as (rs & s' & Hrun & Hwf' & Hall & Hsub).
        exists (PopReturned (Some x) :: rs), s'.
        split; [|split; [exact Hwf'|split]].
        -- rewrite run_cons. unfold RB.perform, bind, ret.
           rewrite HP, Hrun. reflexivity.
        -- constructor; [discriminate|exact Hall].
        -- rewrite (contents_advance _ Hacc s x Hwf Hne Hx).
           change (popped (PopReturned (Some x) :: rs)) with (x :: popped rs).
           change (pushed (CallPop :: cs)) with (pushed cs).
           cbn [app]. apply sublist_skip. exact Hsub.
Qed.

(** An overwriting [Push] into a full buffer is a [Pop] followed by a
    [Push]. *)
Lemma overwrite_as_pop_push Policy v s :
  2 <= Capacity ->
  RB.wf Capacity s -> RB.full Capacity s = true ->
  exists x,
    slot (buffer_ s) (head s) = Some x
    /\ RB.Pop Capacity s
       = Done (Some x, {| buffer_ := buffer_ s; tail := tail s;
                          head := Z.land (SizeT.add (head s) 1)
                                    (RB.Mask Capacity) |})
    /\ bind (RB.Pop Capacity) (fun _ => RB.Push Capacity Policy v) s
       = RB.Push Capacity Overwrite v s.
Proof using Hacc.
  intros Htwo Hwf Hfull. pose proof Hwf as (Hl & Hh & Ht).
  assert (Hnt : Z.land (SizeT.add (tail s) 1) (RB.Mask Capacity) = head s)
    by (apply Z.eqb_eq; exact Hfull).
  assert (Hne : head s <> tail s).
  { intros E. rewrite E in Hnt. revert Hnt.
    apply (next_index_moves _ Hacc); lia. }
  destruct (wf_slot_head Capacity s Hwf) as [x Hx].
  pose proof (Pop_nonempty Capacity s x Hne Hx) as HP.
  pose proof (Pop_wf Capacity Hacc s _ _ Hwf HP) as Hwf1.
  exists x. split; [exact Hx|]. split; [exact HP|].
  unfold bind at 1. rewrite HP.
  rewrite Push_full_Overwrite by assumption.
  rewrite Push_not_full; [reflexivity|exact Hwf1|].
  unfold RB.full. cbn [head tail]. apply Z.eqb_neq. rewrite Hnt.
  intros E. symmetry in E. revert E. apply (next_index_moves _ Hacc); lia.
Qed.
End Overwriting.

(** X17 (order under [Overwrite]).  Under [OverflowPolicy::Overwrite],
    after any sequence of [Push] and [Pop] calls on the initial buffer of a
    [RingBuffer] of accepted capacity, every call has returned, no [Push]
    has returned [false], and the values returned by [Pop] followed by the
    values still queued form a subsequence of the values pushed: eviction
    loses elements, and never reorders or duplicates one. *)
Theorem overwrite_preserves_order (T : Type) (Capacity : Z) (zero : T)
    (cs : list (call T)) :
  accepts Capacity = true ->
  exists rs s',
    RB.run Capacity Overwrite cs (RB.init Capacity zero) = Done (rs, s')
    /\ Forall (fun r => r <> PushReturned false) rs
    /\ sublist (popped rs ++ RB.contents Capacity s') (pushed cs).
Proof.
  intros Hacc.
  destruct (overwrite_run_sublist Capacity Hacc cs _ (wf_init Capacity Hacc zero))
    as (rs & s' & Hrun & _ & Hall & Hsub).
  rewrite (contents_init _ Hacc) in Hsub.
  exists rs, s'. repeat split; assumption.
Qed.

Lemma overwrite_preserves_order_witness :
  exists rs s',
    RB.run 2 Overwrite [CallPush 1; CallPush 2; CallPop; CallPush 3; CallPush 4]
      (RB.init 2 0) = Done (rs, s')
    /\ Forall (fun r => r <> PushReturned false) rs
    /\ sublist (popped rs ++ RB.contents 2 s') [1; 2; 3; 4].
Proof.
  exact (overwrite_preserves_order Z 2 0
           [CallPush 1; CallPush 2; CallPop; CallPush 3; CallPush 4] eq_refl).
Defined.

(** X18 (eviction is a [Pop]).  In every reachable full state of a
    [RingBuffer] of accepted capacity at least 2 under [Overwrite], [Push(v)]
    leaves the object exactly as a [Pop], which returns the oldest element,
    followed by a [Push(v)] does, and both pushes return [true]. *)
Theorem overwrite_is_pop_then_push (T : Type) (Capacity : Z) (zero : T)
    (s : RingBuffer T) (v : T) :
  accepts Capacity = true ->
  2 <= Capacity ->
  RB.reachable Capacity Overwrite zero s ->
  RB.full Capacity s = true ->
  exists x s1 s',
    RB.Pop Capacity s = Done (Some x, s1)
    /\ RB.contents Capacity s = x :: RB.contents Capacity s1
    /\ RB.Push Capacity Overwrite v s1 = Done (true, s')
    /\ RB.Push Capacity Overwrite v s = Done (true, s').
Proof.
  intros Hacc Htwo Hreach Hfull.
  pose proof (reachable_wf Capacity Hacc Overwrite zero s Hreach) as Hwf.
  destruct (overwrite_as_pop_push Capacity Hacc Overwrite v s Htwo Hwf Hfull)
    as (x & Hx & HP & Hbind).
  assert (Hne : head s <> tail s).
  { intros E. rewrite (Pop_empty Capacity s E) in HP. discriminate. }
  pose proof (Push_full_Overwrite Capacity v s Hwf Hfull) as HO.
  unfold bind in Hbind. rewrite HP, HO in Hbind.
  exists x. eexists. eexists. split; [exact HP|].
  split; [apply contents_advance; assumption|].
  split; [exact Hbind | exact HO].
Qed.

Lemma overwrite_is_pop_then_push_witness :
  let s := {| buffer_ := [1; 2; 3; 0]; tail := 3; head := 0 |} in
  exists x s1 s',
    RB.Pop 4 s = Done (Some x, s1)
    /\ RB.contents 4 s = x :: RB.contents 4 s1
    /\ RB.Push 4 Overwrite 4 s1 = Done (true, s')
    /\ RB.Push 4 Overwrite 4 s = Done (true, s').
Proof.
  refine (overwrite_is_pop_then_push Z 4 0
            {| buffer_ := [1; 2; 3; 0]; tail := 3; head := 0 |} 4
            eq_refl _ _ eq_refl).
  - lia.
  - exists [CallPush 1; CallPush 2; CallPush 3],
           [PushReturned true; PushReturned true; PushReturned true].
    reflexivity.
Defined.

(** X19 (the policy matters only on overflow).  From any state, a sequence
    of [Push] and [Pop] calls in which no [Push] meets a full buffer gets the
    same replies and leaves the same object under [Reject] and under
    [Overwrite]. *)
Theorem policies_agree_without_overflow (T : Type) (Capacity : Z)
    (cs : list (call T)) (s : RingBuffer T) :
  RB.overflow_free Capacity Reject cs s = true ->
  RB.run Capacity Overwrite cs s = RB.run Capacity Reject cs s.
Proof.
  revert s. induction cs as [|c cs IH]; intros s Hof; [reflexivity|].
  cbn [RB.overflow_free] in Hof. apply andb_true_iff in Hof as [Hroom Hof].
  assert (Hperf : RB.perform Capacity Overwrite c s
                  = RB.perform Capacity Reject c s).
  { destruct c as [v|]; [|reflexivity].
    apply negb_true_iff in Hroom. unfold RB.full in Hroom.
    assert (HP : RB.Push Capacity Overwrite v s = RB.Push Capacity Reject v s)
      by (unfold_rb; rewrite Hroom; reflexivity).
    unfold RB.perform, bind. rewrite HP. reflexivity. }
  rewrite !run_cons, Hperf.
  destruct (RB.perform Capacity Reject c s) as [[r s1]| | |];
    try discriminate.
  rewrite (IH s1 Hof). reflexivity.
Qed.

Lemma policies_agree_without_overflow_witness :
  RB.run 4 Overwrite [CallPush 1; CallPush 2; CallPop; CallPush 3; CallPush 4]
    (RB.init 4 0)
  = RB.run 4 Reject [CallPush 1; CallPush 2; CallPop; CallPush 3; CallPush 4]
      (RB.init 4 0).
Proof.
  exact (policies_agree_without_overflow Z 4
           [CallPush 1; CallPush 2; CallPop; CallPush 3; CallPush 4]
           (RB.init 4 0) eq_refl).
Defined.
